(** * Sparse-matrix transpose and densify kernels of fastde

    A shallow embedding of [src/rcpp_sparsemat.cpp]: the counting-sort
    transpose of a compressed-sparse-column matrix ([sp_transpose],
    [spamx_transpose]) and the four scatter routines that expand such a
    matrix into a dense one ([sp_to_dense], [spamx_to_dense],
    [sp_to_dense_transposed], [spamx_to_dense_transposed]).

    Machine integers are [Z] with the wrap-around of their C type written
    out, arrays are lists read and written by index, an access outside an
    array is a fault, and every C loop is a fuelled loop whose counter is
    advanced in its own type. *)

From Stdlib Require Import ZArith Lia.
From stdpp Require Import base list list_numbers sorting gmap strings.

Local Open Scope Z_scope.

(** ** Faults and results *)

Inductive fault : Type :=
| OutOfBounds   (* an index outside the array it is applied to *)
| Runaway.      (* a loop that did not stop within its fuel *)

Inductive result (A : Type) : Type :=
| Ok (a : A)
| Err (f : fault).
Arguments Ok {A} a.
Arguments Err {A} f.

Definition bind {A B} (m : result A) (k : A → result B) : result B :=
  match m with
  | Ok a => k a
  | Err f => Err f
  end.

Notation "x <~ m ;; k" := (bind m (λ x, k))
  (at level 100, m at next level, right associativity,
   format "'[v' x  <~  m  ;;  '/' k ']'").

(** ** Arrays *)

Definition zlen {A} (l : list A) : Z := Z.of_nat (length l).

(** Lookup at an integer index; nothing is stored at a negative one. *)
Definition zget {A} (l : list A) (k : Z) : option A :=
  if decide (0 ≤ k) then l !! Z.to_nat k else None.

(** [l[k]] as an r-value. *)
Definition rd {A} (l : list A) (k : Z) : result A :=
  match zget l k with
  | Some a => Ok a
  | None => Err OutOfBounds
  end.

(** [l[k] = a]. *)
Definition wr {A} (l : list A) (k : Z) (a : A) : result (list A) :=
  if decide (0 ≤ k < zlen l) then Ok (<[Z.to_nat k := a]> l)
  else Err OutOfBounds.

(** ** Integer types *)

(** [int]: 32 bits, two's complement. *)
Definition to_int (z : Z) : Z := (z + 2 ^ 31) `mod` 2 ^ 32 - 2 ^ 31.
(** [size_t]: 64 bits, unsigned. *)
Definition to_size_t (z : Z) : Z := z `mod` 2 ^ 64.
(** A 64-bit two's complement integer. *)
Definition to_int64 (z : Z) : Z := (z + 2 ^ 63) `mod` 2 ^ 64 - 2 ^ 63.

(** The two index widths. [cnt] is the type of the local counters of the
    transpose ([nrow], [ncol], [nelem], [rid], [cid], [pos] and the counters
    of its first three loops); [elt] is the element type of the index arrays
    [i] and [p] of the matrix class. *)
Record Width : Type := { cnt : Z → Z; elt : Z → Z }.

(** [Rcpp::dgCMatrix]: [int] counters over [IntegerVector] slots. *)
Definition narrow : Width := {| cnt := to_int; elt := to_int |}.

(** Modelled from the spec: [Rcpp::spamx64] is declared in
    [rcpp_data_utils.hpp], which is not part of the sources at hand; the
    spec describes it as the same layout with wide indices and offsets, so
    its slots are taken to hold 64-bit integers. The counters of
    [spamx_transpose] are [size_t] in the source. *)
Definition wide : Width := {| cnt := to_size_t; elt := to_int64 |}.

(** ** Loops *)

(** [while (cond) body], with a fallible condition. *)
Fixpoint loop {St} (fuel : nat) (cond : St → result bool)
    (body : St → result St) (s : St) : result St :=
  match fuel with
  | O => Err Runaway
  | S n =>
      b <~ cond s ;;
      if b : bool then s' <~ body s ;; loop n cond body s' else Ok s
  end.

(** [for (T k = lo; cond k; ++k) body], the counter [k] of type [ty]. *)
Definition for_loop {St} (ty : Z → Z) (fuel : nat) (lo : Z) (cond : Z → bool)
    (body : Z → St → result St) (s : St) : result St :=
  r <~ loop fuel (λ ks, Ok (cond ks.1))
         (λ ks, s' <~ body ks.1 ks.2 ;; Ok (ty (ks.1 + 1), s')) (lo, s) ;;
  Ok r.2.

(** ** Labels *)

(** A label vector lives in the host's heap and is held by reference. *)
Inductive SEXP : Type :=
| R_NilValue
| Ref (a : nat).




(** ** Values *)

(** The stored values are C doubles; the kernels only copy them and zero-fill
    the dense buffer, so any type with a zero will do. *)
Class Scalar (V : Type) : Type := zero : V.

Section Kernel.
Context {V : Type} `{!Scalar V}.

(** ** Matrices *)

(** The slots of a [dgCMatrix] / [spamx64] object. *)
Record spmat : Type := {
  sp_i : list Z;             (* row of each stored entry, 0-based *)
  sp_p : list Z;             (* offset of each column, [ncol + 1] of them *)
  sp_x : list V;             (* value of each stored entry *)
  sp_Dim : Z * Z;            (* rows, columns *)
  sp_Dimnames : SEXP * SEXP  (* row labels, column labels *)
}.

(** Modelled from the spec: the constructor [dgCMatrix(nrow, ncol, nelem)]
    (and [spamx64]'s) is declared in [rcpp_data_utils.hpp]; it allocates
    [i] and [x] of length [nelem] and [p] of length [ncol + 1], as Rcpp
    vectors do zero-filled, and records the shape. *)
Definition new_spmat (nrow ncol nelem : Z) : spmat :=
  {| sp_i := replicate (Z.to_nat nelem) 0;
     sp_p := replicate (Z.to_nat (ncol + 1)) 0;
     sp_x := replicate (Z.to_nat nelem) zero;
     sp_Dim := (nrow, ncol);
     sp_Dimnames := (R_NilValue, R_NilValue) |}.

(** [Rcpp::NumericMatrix]: a column-major buffer with its shape and an
    optional [dimnames] attribute. *)
Record NumericMatrix : Type := {
  nm_nrow : Z;
  nm_ncol : Z;
  nm_data : list V;
  nm_dimnames : option (SEXP * SEXP)
}.

(** [NumericMatrix dense(nrow, ncol)]: the constructor takes [int]s and
    zero-fills. *)
Definition new_matrix (nrow ncol : Z) : NumericMatrix :=
  let nr := to_int nrow in
  let nc := to_int ncol in
  {| nm_nrow := nr; nm_ncol := nc;
     nm_data := replicate (Z.to_nat (nr * nc)) zero;
     nm_dimnames := None |}.

(** [dense(r, c) = v]: Rcpp's [operator()] takes the two [size_t]
    subscripts, narrows them to [int] for [offset(int, int)] and writes
    element [r + nrow * c] of the buffer, unchecked. *)
Definition mat_set (d : NumericMatrix) (r c : Z) (v : V) : result NumericMatrix :=
  data <~ wr (nm_data d) (to_int r + nm_nrow d * to_int c) v ;;
  Ok {| nm_nrow := nm_nrow d; nm_ncol := nm_ncol d;
        nm_data := data; nm_dimnames := nm_dimnames d |}.

(** Reading a slot of an index array gives a value of the element type. *)
Definition ld (W : Width) (l : list Z) (k : Z) : result Z :=
  v <~ rd l k ;; Ok (elt W v).

(** ** Transpose *)

(** The bodies of the loops of [sp_transpose] and [spamx_transpose], which
    differ in the integer types only. The state of a loop is what it
    assigns to. *)

(** Step 1, [out.p[r] = 0]. *)
Definition clear_step (r : Z) (p : list Z) : result (list Z) := wr p r 0.

(** Step 1, [++out.p[ sp_matrix.i[e] + 1 ]]. *)
Definition count_step (W : Width) (sp_matrix : spmat) (e : Z) (p : list Z)
    : result (list Z) :=
  rid <~ ld W (sp_i sp_matrix) e ;;
  let k := elt W (rid + 1) in
  n <~ rd p k ;;
  wr p k (elt W (n + 1)).

(** Step 2, [out.p[r] += out.p[r - 1]]. *)
Definition sum_step (W : Width) (r : Z) (p : list Z) : result (list Z) :=
  a <~ rd p r ;;
  b <~ rd p (cnt W (r - 1)) ;;
  wr p r (elt W (a + b)).

(** Step 3, [for (; e >= sp_matrix.p[cid+1]; ++cid);] with [e] a [size_t]. *)
Definition skip_columns (W : Width) (sp_matrix : spmat) (e cid : Z) : result Z :=
  loop (S (length (sp_p sp_matrix)))
    (λ cid, c_end <~ ld W (sp_p sp_matrix) (cnt W (cid + 1)) ;;
            Ok (to_size_t c_end <=? e))
    (λ cid, Ok (cnt W (cid + 1)))
    cid.

(** Step 3, one entry: the state is [out.p], [out.i], [out.x] and [cid]. *)
Definition scatter_step (W : Width) (sp_matrix : spmat) (e : Z)
    (st : list Z * list Z * list V * Z) : result (list Z * list Z * list V * Z) :=
  let '(p, ti, tx, cid) := st in
  rid <~ ld W (sp_i sp_matrix) e ;;
  let rid := cnt W rid in
  val <~ rd (sp_x sp_matrix) e ;;
  cid <~ skip_columns W sp_matrix e cid ;;
  pos <~ rd p rid ;;
  let pos := cnt W pos in
  tx <~ wr tx pos val ;;
  ti <~ wr ti pos (elt W cid) ;;
  n <~ rd p rid ;;
  p <~ wr p rid (elt W (n + 1)) ;;
  Ok (p, ti, tx, cid).

(** Step 4, [std::swap(off, out.p[r])]. *)
Definition shift_step (r : Z) (st : Z * list Z) : result (Z * list Z) :=
  let '(off, p) := st in
  v <~ rd p r ;;
  p <~ wr p r off ;;
  Ok (v, p).

(** The routine itself. [dimns] takes the two label vectors of the input
    by reference, exchanged; the loops that copied them are commented out
    in the source. *)
Definition transpose (W : Width) (sp_matrix : spmat) : result spmat :=
  let nrow := cnt W (sp_Dim sp_matrix).1 in
  let ncol := cnt W (sp_Dim sp_matrix).2 in
  nelem <~ ld W (sp_p sp_matrix) ncol ;;
  let nelem := cnt W nelem in
  (* create new output and set row and col names *)
  let out := new_spmat ncol nrow nelem in
  let dimns := ((sp_Dimnames sp_matrix).2, (sp_Dimnames sp_matrix).1) in
  (* step 1: clear, then count the entries of each row *)
  p <~ for_loop (cnt W) (S (length (sp_p out))) 0 (λ r, r <=? nrow)
         clear_step (sp_p out) ;;
  p <~ for_loop (cnt W) (S (length (sp_i sp_matrix))) 0 (λ e, e <? nelem)
         (count_step W sp_matrix) p ;;
  (* step 2: prefix sum *)
  p <~ for_loop (cnt W) (S (length p)) 1 (λ r, r <=? nrow) (sum_step W) p ;;
  (* step 3: scatter; e is a size_t *)
  st <~ for_loop to_size_t (S (length (sp_i sp_matrix))) 0
          (λ e, e <? to_size_t nelem)
          (scatter_step W sp_matrix) (p, sp_i out, sp_x out, 0) ;;
  let '(p, ti, tx, _) := st in
  (* step 4: shift the offsets; r is a size_t *)
  off <~ rd p 0 ;;
  p <~ wr p 0 0 ;;
  st <~ for_loop to_size_t (S (length p)) 1 (λ r, r <=? to_size_t nrow)
          shift_step (off, p) ;;
  Ok {| sp_i := ti; sp_p := st.2; sp_x := tx;
        sp_Dim := (ncol, nrow); sp_Dimnames := dimns |}.

Definition sp_transpose : spmat → result spmat := transpose narrow.
Definition spamx_transpose : spmat → result spmat := transpose wide.

(** ** Densify *)

(** One entry of the scatter of the four densify routines, whose bodies
    differ only in the order of the two subscripts of [dense]; the state is
    [dense], [c] and [c_end], all locals are [size_t] in both widths, and
    [tr] tells whether the output is transposed. The column advances by at
    most one per entry: [if (e == c_end) { ++c; c_end = p[c + 1]; }]. *)
Definition densify_step (W : Width) (tr : bool) (sp_matrix : spmat) (e : Z)
    (st : NumericMatrix * Z * Z) : result (NumericMatrix * Z * Z) :=
  let '(dense, c, c_end) := st in
  cc <~ (if e =? c_end then
           let c := to_size_t (c + 1) in
           c_end <~ ld W (sp_p sp_matrix) (to_size_t (c + 1)) ;;
           Ok (c, to_size_t c_end)
         else Ok (c, c_end)) ;;
  let '(c, c_end) := cc in
  r <~ ld W (sp_i sp_matrix) e ;;
  v <~ rd (sp_x sp_matrix) e ;;
  dense <~ (if tr then mat_set dense c (to_size_t r) v
            else mat_set dense (to_size_t r) c v) ;;
  Ok (dense, c, c_end).

(** The routine itself; the [Rprintf] that logs the shape is left out, and
    the assignments of [rownames] and [colnames] are commented out in the
    source. *)
Definition densify (W : Width) (tr : bool) (sp_matrix : spmat)
    : result NumericMatrix :=
  let nrow := to_size_t (sp_Dim sp_matrix).1 in
  let ncol := to_size_t (sp_Dim sp_matrix).2 in
  nelem <~ ld W (sp_p sp_matrix) ncol ;;
  let nelem := to_size_t nelem in
  let dense := if tr then new_matrix ncol nrow else new_matrix nrow ncol in
  (* iterate over all elements *)
  c_end <~ ld W (sp_p sp_matrix) 1 ;;
  st <~ for_loop to_size_t (S (length (sp_i sp_matrix))) 0 (λ e, e <? nelem)
          (densify_step W tr sp_matrix) (dense, 0, to_size_t c_end) ;;
  Ok st.1.1.

Definition sp_to_dense : spmat → result NumericMatrix := densify narrow false.
Definition spamx_to_dense : spmat → result NumericMatrix := densify wide false.
Definition sp_to_dense_transposed : spmat → result NumericMatrix :=
  densify narrow true.
Definition spamx_to_dense_transposed : spmat → result NumericMatrix :=
  densify wide true.

End Kernel.

Arguments spmat V : clear implicits.
Arguments NumericMatrix V : clear implicits.

(** ** What a matrix stores *)

Section Spec.
Context {V : Type} `{!Scalar V}.
Implicit Types (M : spmat V) (d : NumericMatrix V).

Definition nrows M : Z := (sp_Dim M).1.
Definition ncols M : Z := (sp_Dim M).2.

(** The offset of column [c]. *)
Definition colptr M (c : Z) : Z := default 0 (zget (sp_p M) c).
(** The number of stored entries. *)
Definition nnz M : Z := colptr M (ncols M).

(** The elements of [l] at positions [a], ..., [b - 1]. *)
Definition slice {A} (l : list A) (a b : Z) : list A :=
  take (Z.to_nat (b - a)) (drop (Z.to_nat a) l).

(** Where the piece of index [c] starts when [g 0], [g 1], ... are laid end
    to end. *)
Definition plen {A} (g : Z → list A) (c : Z) : Z := zlen (seqZ 0 c ≫= g).

(** A stored entry: its row, its column and its value. *)
Definition entry : Type := Z * Z * V.
Definition e_row (t : entry) : Z := t.1.1.
Definition e_col (t : entry) : Z := t.1.2.
Definition e_val (t : entry) : V := t.2.
(** The same entry seen in the transposed matrix. *)
Definition flip (t : entry) : entry := (e_col t, e_row t, e_val t).

(** A row and a value of column [c] as an entry. *)
Definition tag (c : Z) (rv : Z * V) : entry := (rv.1, c, rv.2).

(** The rows and values stored for column [c], in storage order. *)
Definition column M (c : Z) : list (Z * V) :=
  slice (zip (sp_i M) (sp_x M)) (colptr M c) (colptr M (c + 1)).

(** All stored entries, in storage order. *)
Definition entries M : list entry :=
  c ← seqZ 0 (ncols M); tag c <$> column M c.

(** The layout invariants of the format, without the order of the rows
    inside a column. *)
Definition wf_csc M : Prop :=
  0 ≤ nrows M ∧ 0 ≤ ncols M ∧
  zlen (sp_p M) = ncols M + 1 ∧
  zget (sp_p M) 0 = Some 0 ∧
  Sorted Z.le (sp_p M) ∧
  zlen (sp_i M) = nnz M ∧
  zlen (sp_x M) = nnz M ∧
  Forall (λ r, 0 ≤ r < nrows M) (sp_i M).

(** Column [c] lists its rows in strictly increasing order. *)
Definition col_sorted M (c : Z) : Prop := Sorted Z.lt (column M c).*1.

(** Canonical form. *)
Definition canonical M : Prop :=
  wf_csc M ∧ Forall (col_sorted M) (seqZ 0 (ncols M)).

(** The shape and the entry count are below [B], with room for a counter
    that runs one past the number of rows or columns. *)
Definition fits (B : Z) M : Prop :=
  nrows M + 1 < B ∧ ncols M + 1 < B ∧ nnz M < B.

(** The shape and the entry count are below [B], with room for a counter
    that runs one past the number of rows. The transposes need no more: no
    counter of theirs runs past the number of columns. *)
Definition fits_rows (B : Z) M : Prop :=
  nrows M + 1 < B ∧ ncols M < B ∧ nnz M < B.

(** The shape and the entry count are below [B]. *)
Definition fits_count (B : Z) M : Prop :=
  nrows M < B ∧ ncols M < B ∧ nnz M < B.

(** The entries of row [r], in storage order. *)
Definition bucket (r : Z) (L : list entry) : list entry :=
  filter (λ t, e_row t = r) L.
(** The first [e] elements of [l]. *)
Definition ztake {A} (e : Z) (l : list A) : list A := take (Z.to_nat e) l.
(** How many entries of [L] lie in rows above row [r]. *)
Definition rbelow (r : Z) (L : list entry) : Z :=
  zlen (filter (λ t, e_row t < r) L).
(** The entries row after row. *)
Definition by_row M : list entry :=
  r ← seqZ 0 (nrows M); bucket r (entries M).
(** How many entries lie in rows above row [r]. *)
Definition row_start M (r : Z) : Z := rbelow r (entries M).

(** The transpose, written as a function of the stored entries. *)
Definition transposed M : spmat V :=
  {| sp_i := e_col <$> by_row M;
     sp_p := row_start M <$> seqZ 0 (nrows M + 1);
     sp_x := e_val <$> by_row M;
     sp_Dim := (ncols M, nrows M);
     sp_Dimnames := ((sp_Dimnames M).2, (sp_Dimnames M).1) |}.

(** *** What the claims say of a matrix [M] and its transpose [T] *)


(** [T] has the shape of [M] exchanged, as many entries, and arrays of the
    lengths that go with them. *)
Definition swapped_shape M (T : spmat V) : Prop :=
  nrows T = ncols M ∧ ncols T = nrows M ∧ nnz T = nnz M ∧
  zlen (sp_p T) = nrows M + 1 ∧ zget (sp_p T) (nrows M) = Some (nnz M) ∧
  zlen (sp_i T) = nnz M ∧ zlen (sp_x T) = nnz M.





(** *** Loop invariants of the transpose

    Each one relates the state of a loop to the stored entries, [e] or [r]
    being the value of the counter. *)

(** Clearing leaves the fresh offsets as they are. *)
Definition inv_clear M (r : Z) (p : list Z) : Prop :=
  p = replicate (Z.to_nat (nrows M + 1)) 0.

(** Slot [k] counts the entries of row [k - 1] among the first [e]. *)
Definition inv_count M (e : Z) (p : list Z) : Prop :=
  zlen p = nrows M + 1 ∧
  ∀ k, 0 ≤ k ≤ nrows M →
    zget p k = Some (zlen (bucket (k - 1) (ztake e (entries M)))).

(** The slots before [r] hold offsets, the others still hold counts. *)
Definition inv_sum M (r : Z) (p : list Z) : Prop :=
  zlen p = nrows M + 1 ∧
  (∀ k, 0 ≤ k < r → zget p k = Some (rbelow k (entries M))) ∧
  (∀ k, r ≤ k ≤ nrows M → zget p k = Some (zlen (bucket (k - 1) (entries M)))).

(** The cursor of every row stands after the entries of that row among the
    first [e], which fill the start of the row's range in order; [cid] has
    not passed the column of entry [e]. *)
Definition inv_scatter M (e : Z) (st : list Z * list Z * list V * Z) : Prop :=
  let '(p, ti, tx, cid) := st in
  zlen p = nrows M + 1 ∧ zlen ti = nnz M ∧ zlen tx = nnz M ∧
  (∀ r, 0 ≤ r ≤ nrows M →
     zget p r = Some (rbelow r (entries M)
                      + zlen (bucket r (ztake e (entries M))))) ∧
  (∀ r k t, zget (bucket r (ztake e (entries M))) k = Some t →
     zget ti (rbelow r (entries M) + k) = Some (e_col t) ∧
     zget tx (rbelow r (entries M) + k) = Some (e_val t)) ∧
  0 ≤ cid ≤ ncols M ∧ colptr M cid ≤ e.

(** The slots before [r] hold start offsets, the others end offsets, and
    [off] carries the start offset of row [r]. *)
Definition inv_shift M (r : Z) (st : Z * list Z) : Prop :=
  let '(off, p) := st in
  zlen p = nrows M + 1 ∧
  (∀ k, 0 ≤ k < r → zget p k = Some (rbelow k (entries M))) ∧
  (∀ k, r ≤ k ≤ nrows M → zget p k = Some (rbelow (k + 1) (entries M))) ∧
  off = rbelow r (entries M).

(** *** Loop invariant of the densify routines

    The buffer keeps its shape and [c] stays a column whose end offset is
    [c_end]; an empty matrix leaves the buffer zero-filled. *)
Definition inv_densify M (tr : bool) (e : Z) (st : NumericMatrix V * Z * Z)
    : Prop :=
  let '(d, c, c_end) := st in
  nm_nrow d = (if tr then ncols M else nrows M) ∧
  nm_ncol d = (if tr then nrows M else ncols M) ∧
  zlen (nm_data d) = nrows M * ncols M ∧
  nm_dimnames d = None ∧
  (nnz M = 0 → nm_data d = replicate (Z.to_nat (nrows M * ncols M)) zero) ∧
  0 ≤ c < ncols M ∧ c_end = colptr M (c + 1).

(** No column is empty between two stored entries, nor are the first two
    columns both empty before the first entry: every column from the second
    on that starts before the end of the entries holds an entry. *)
Definition gap_free M : Prop :=
  ∀ c, 1 ≤ c < ncols M → colptr M c < nnz M → colptr M c < colptr M (c + 1).

(** The entries of [X] at row [r] and column [c]. *)
Definition stored_at (r c : Z) (X : list entry) : list entry :=
  filter (λ t, e_row t = r ∧ e_col t = c) X.

(** The value that scattering [X] leaves at row [r] and column [c]: that of
    the last entry stored there, zero when there is none. *)
Definition scattered (r c : Z) (X : list entry) : V :=
  default zero (e_val <$> last (stored_at r c X)).

(** The invariant of the densify routines on a matrix without gaps: [c] is
    the column of the entries about offset [e], and the buffer holds the
    first [e] entries, each in its cell. *)
Definition inv_densify_exact M (tr : bool) (e : Z)
    (st : NumericMatrix V * Z * Z) : Prop :=
  let '(d, c, c_end) := st in
  nm_nrow d = (if tr then ncols M else nrows M) ∧
  nm_ncol d = (if tr then nrows M else ncols M) ∧
  zlen (nm_data d) = nrows M * ncols M ∧
  nm_dimnames d = None ∧
  0 ≤ c < ncols M ∧ c_end = colptr M (c + 1) ∧
  colptr M c ≤ e ≤ colptr M (c + 1) ∧
  ∀ r k, 0 ≤ r < nrows M → 0 ≤ k < ncols M →
    zget (nm_data d) (if tr then k + ncols M * r else r + nrows M * k)
    = Some (scattered r k (ztake e (entries M))).

(** A column sorted by row with one bucket per row, the entries of equal row
    keeping their order. *)
Definition sort_rows (n : Z) (col : list (Z * V)) : list (Z * V) :=
  r ← seqZ 0 n; filter (λ rv, rv.1 = r) col.

(** The transpose lists, column by column, the entries of each row of the
    input in their storage order, and starts each column where the rows
    before it end. *)
Definition gathered_by_row M (T : spmat V) : Prop :=
  ∀ r, 0 ≤ r < nrows M →
    colptr T r = rbelow r (entries M) ∧
    column T r = (λ t, (e_col t, e_val t)) <$> bucket r (entries M).

(** [T] stores the entries of [M] flipped, each as often as [M] stores it. *)
Definition same_entries M (T : spmat V) : Prop :=
  entries T ≡ₚ flip <$> entries M ∧ sp_x T ≡ₚ sp_x M.

(** Every column of [T] lists its rows in non-decreasing order. *)
Definition cols_nondecreasing (T : spmat V) : Prop :=
  ∀ c, 0 ≤ c < ncols T → Sorted Z.le (column T c).*1.

(** [T] is [M] with every column sorted by row: the same shape, labels and
    offsets, and in every column the same entries. *)
Definition rows_sorted M (T : spmat V) : Prop :=
  sp_Dim T = sp_Dim M ∧ sp_Dimnames T = sp_Dimnames M ∧ sp_p T = sp_p M ∧
  ∀ c, 0 ≤ c < ncols M →
    column T c = sort_rows (nrows M) (column M c) ∧
    column T c ≡ₚ column M c ∧
    Sorted Z.le (column T c).*1.

(** No column stores two entries of the same row. *)
Definition no_duplicates M : Prop :=
  Forall (λ c, NoDup (column M c).*1) (seqZ 0 (ncols M)).

(** The invariant of the densify routines on any well-formed matrix with a
    column: [c] has not passed the column of entry [e], and every cell is
    zero or holds the value of an entry of its row that is stored in its
    column or in a later one. *)
Definition inv_densify_rows M (tr : bool) (e : Z)
    (st : NumericMatrix V * Z * Z) : Prop :=
  let '(d, c, c_end) := st in
  nm_nrow d = (if tr then ncols M else nrows M) ∧
  nm_ncol d = (if tr then nrows M else ncols M) ∧
  zlen (nm_data d) = nrows M * ncols M ∧
  0 ≤ c < ncols M ∧ c_end = colptr M (c + 1) ∧ colptr M c ≤ e ∧
  ∀ r k, 0 ≤ r < nrows M → 0 ≤ k < ncols M →
    ∃ v, zget (nm_data d) (if tr then k + ncols M * r else r + nrows M * k)
         = Some v ∧
         (v = zero ∨ ∃ c', (r, c', v) ∈ entries M ∧ k ≤ c').

(** Cell [(r, c)] of a dense matrix. *)
Definition cell d (r c : Z) : option V :=
  if decide (0 ≤ r < nm_nrow d ∧ 0 ≤ c < nm_ncol d)
  then zget (nm_data d) (r + nm_nrow d * c) else None.

(** The invariant of [to_dense] and [to_dense_transposed] run side by
    side on the same matrix: the two are at the same column, and the buffer
    of the second is that of the first, transposed. *)
Definition inv_densify_pair M (e : Z) (st1 st2 : NumericMatrix V * Z * Z)
    : Prop :=
  inv_densify M false e st1 ∧ inv_densify M true e st2 ∧
  st1.1.2 = st2.1.2 ∧
  ∀ r k, 0 ≤ r < nrows M → 0 ≤ k < ncols M →
    zget (nm_data st1.1.1) (r + nrows M * k)
    = zget (nm_data st2.1.1) (k + ncols M * r).

(** [dt] is [d] transposed, cell by cell. *)
Definition dense_transposed d dt : Prop :=
  nm_nrow dt = nm_ncol d ∧ nm_ncol dt = nm_nrow d ∧
  ∀ r k, cell dt k r = cell d r k.

(** A dense form of [M] up to a shift to the left: [d], laid out transposed
    when [tr] is set, has the shape of [M], and every cell is zero or holds
    the value of an entry of its row that [M] stores in the column of the
    cell or in a later one. *)
Definition rows_kept M (tr : bool) d : Prop :=
  nm_nrow d = (if tr then ncols M else nrows M) ∧
  nm_ncol d = (if tr then nrows M else ncols M) ∧
  ∀ r k, 0 ≤ r < nrows M → 0 ≤ k < ncols M →
    ∃ v, (if tr then cell d k r else cell d r k) = Some v ∧
         (v = zero ∨ ∃ c, (r, c, v) ∈ entries M ∧ k ≤ c).

(** The dense form of [M] in which the last entry stored at a cell wins:
    [d], laid out transposed when [tr] is set, has the shape of [M] and
    holds at every cell the value of the last entry stored there, zero when
    there is none. *)
Definition last_stored_wins M (tr : bool) d : Prop :=
  nm_nrow d = (if tr then ncols M else nrows M) ∧
  nm_ncol d = (if tr then nrows M else ncols M) ∧
  ∀ r k, 0 ≤ r < nrows M → 0 ≤ k < ncols M →
    (if tr then cell d k r else cell d r k)
    = Some (scattered r k (entries M)).

End Spec.

#[global] Instance gap_free_dec {V} (M : spmat V) : Decision (gap_free M).
Proof.
  refine (cast_if (decide (Forall
            (λ c, colptr M c < nnz M → colptr M c < colptr M (c + 1))
            (seqZ 1 (ncols M - 1)))));
    unfold gap_free; rewrite Forall_seqZ in *.
  - intros c Hc. apply f. lia.
  - intros Hg. apply n. intros c Hc. apply Hg. lia.
Defined.

#[global] Instance no_duplicates_dec {V} (M : spmat V) :
  Decision (no_duplicates M).
Proof. unfold no_duplicates. apply _. Defined.

#[global] Instance wf_csc_dec {V} (M : spmat V) : Decision (wf_csc M).
Proof. unfold wf_csc. apply _. Defined.

#[global] Instance canonical_dec {V} (M : spmat V) : Decision (canonical M).
Proof. unfold canonical, col_sorted. apply _. Defined.

#[global] Instance fits_dec {V} B (M : spmat V) : Decision (fits B M).
Proof. unfold fits. apply _. Defined.

#[global] Instance fits_rows_dec {V} (B : Z) (M : spmat V) :
  Decision (fits_rows B M).
Proof. unfold fits_rows. apply _. Defined.

#[global] Instance fits_count_dec {V} (B : Z) (M : spmat V) :
  Decision (fits_count B M).
Proof. unfold fits_count. apply _. Defined.

(** ** Sample matrices, with integers for values *)

#[global] Instance Z_scalar : Scalar Z := 0.

(** The 3 x 2 matrix with entries (0,0), (2,0) and (1,1). *)
Definition M_3x2 : spmat Z :=
  {| sp_i := [0; 2; 1]; sp_p := [0; 2; 3]; sp_x := [1; 2; 3];
     sp_Dim := (3, 2); sp_Dimnames := (Ref 1, Ref 2) |}.

(** A 1 x 3 matrix whose middle column is empty. *)
Definition M_gap : spmat Z :=
  {| sp_i := [0; 0]; sp_p := [0; 1; 1; 2]; sp_x := [1; 2];
     sp_Dim := (1, 3); sp_Dimnames := (R_NilValue, R_NilValue) |}.

(** A 2 x 0 matrix. *)
Definition M_2x0 : spmat Z :=
  {| sp_i := []; sp_p := [0]; sp_x := [];
     sp_Dim := (2, 0); sp_Dimnames := (R_NilValue, R_NilValue) |}.

(** The 3 x 2 sample with the two entries of its first column stored in
    the opposite order. *)
Definition M_unsorted : spmat Z :=
  {| sp_i := [2; 0; 1]; sp_p := [0; 2; 3]; sp_x := [2; 1; 3];
     sp_Dim := (3, 2); sp_Dimnames := (Ref 1, Ref 2) |}.

(** A 3 x 2 matrix whose second entry names row 5. *)
Definition M_bad_row : spmat Z :=
  {| sp_i := [0; 5; 1]; sp_p := [0; 2; 3]; sp_x := [1; 2; 3];
     sp_Dim := (3, 2); sp_Dimnames := (R_NilValue, R_NilValue) |}.

(** A matrix of one column and as many rows as an [int] can count, with
    one entry. *)
Definition M_max_rows : spmat Z :=
  {| sp_i := [5]; sp_p := [0; 1]; sp_x := [7];
     sp_Dim := (2 ^ 31 - 1, 1); sp_Dimnames := (R_NilValue, R_NilValue) |}.

(** The matrix of one row and [n] columns that stores nothing. *)
Definition M_one_row (n : Z) : spmat Z :=
  {| sp_i := []; sp_p := replicate (Z.to_nat (n + 1)) 0; sp_x := [];
     sp_Dim := (1, n); sp_Dimnames := (R_NilValue, R_NilValue) |}.

(** A 2 x 2 matrix that stores row 0 of its first column twice. *)
Definition M_dup : spmat Z :=
  {| sp_i := [0; 0; 1]; sp_p := [0; 2; 3]; sp_x := [1; 2; 3];
     sp_Dim := (2, 2); sp_Dimnames := (R_NilValue, R_NilValue) |}.

(** A 2 x 3 matrix that stores nothing. *)
Definition M_2x3_empty : spmat Z :=
  {| sp_i := []; sp_p := [0; 0; 0; 0]; sp_x := [];
     sp_Dim := (2, 3); sp_Dimnames := (R_NilValue, R_NilValue) |}.


(** * Proofs *)

(** ** Integer conversions *)

Lemma to_int_id z : - 2 ^ 31 ≤ z < 2 ^ 31 → to_int z = z.
Proof. intros. unfold to_int. rewrite Z.mod_small; lia. Qed.

Lemma to_size_t_id z : 0 ≤ z < 2 ^ 64 → to_size_t z = z.
Proof. intros. unfold to_size_t. rewrite Z.mod_small; lia. Qed.

Lemma to_int64_id z : - 2 ^ 63 ≤ z < 2 ^ 63 → to_int64 z = z.
Proof. intros. unfold to_int64. rewrite Z.mod_small; lia. Qed.

(** ** Arrays *)

Section Arrays.
Context {A : Type}.
Implicit Types (l : list A) (k j : Z) (a : A).

Lemma zlen_nonneg l : 0 ≤ zlen l.
Proof. unfold zlen. lia. Qed.

Lemma zget_Some_range l k a : zget l k = Some a → 0 ≤ k < zlen l.
Proof.
  unfold zget, zlen. case_decide; [|done].
  intros Hk%lookup_lt_Some. lia.
Qed.

Lemma zget_in_range l k : 0 ≤ k < zlen l → is_Some (zget l k).
Proof.
  unfold zget, zlen. intros. rewrite decide_True by lia.
  apply lookup_lt_is_Some. lia.
Qed.

Lemma zget_None l k : ¬ (0 ≤ k < zlen l) → zget l k = None.
Proof.
  intros Hk. destruct (zget l k) eqn:E; [|done].
  apply zget_Some_range in E. lia.
Qed.

Lemma zget_nat l (n : nat) : zget l (Z.of_nat n) = l !! n.
Proof. unfold zget. rewrite decide_True by lia. by rewrite Nat2Z.id. Qed.

Lemma zget_insert_eq l k a :
  0 ≤ k < zlen l → zget (<[Z.to_nat k := a]> l) k = Some a.
Proof.
  unfold zget, zlen. intros. rewrite decide_True by lia.
  apply list_lookup_insert_eq. lia.
Qed.

Lemma zget_insert_ne l k j a :
  0 ≤ k → k ≠ j → zget (<[Z.to_nat k := a]> l) j = zget l j.
Proof.
  unfold zget. intros. case_decide; [|done].
  apply list_lookup_insert_ne. lia.
Qed.

Lemma zlen_insert l (n : nat) a : zlen (<[n := a]> l) = zlen l.
Proof. unfold zlen. by rewrite length_insert. Qed.

Lemma zget_ext l1 l2 :
  zlen l1 = zlen l2 →
  (∀ k, 0 ≤ k < zlen l1 → zget l1 k = zget l2 k) → l1 = l2.
Proof.
  intros Hlen Hk. apply list_eq. intros n.
  destruct (decide (Z.of_nat n < zlen l1)) as [Hn|Hn].
  - rewrite <- !zget_nat. apply Hk. lia.
  - unfold zlen in *. rewrite !lookup_ge_None_2; [done| lia | lia].
Qed.

Lemma rd_Ok l k a : zget l k = Some a → rd l k = Ok a.
Proof. unfold rd. by intros ->. Qed.

Lemma wr_Ok l k a :
  0 ≤ k < zlen l → wr l k a = Ok (<[Z.to_nat k := a]> l).
Proof. unfold wr. intros. by rewrite decide_True. Qed.

End Arrays.

Lemma zget_fmap {A B} (f : A → B) (l : list A) k :
  zget (f <$> l) k = f <$> zget l k.
Proof. unfold zget. case_decide; [|done]. apply list_lookup_fmap. Qed.

Lemma zlen_fmap {A B} (f : A → B) (l : list A) : zlen (f <$> l) = zlen l.
Proof. unfold zlen. by rewrite length_fmap. Qed.

Lemma zlen_app {A} (l1 l2 : list A) : zlen (l1 ++ l2) = zlen l1 + zlen l2.
Proof. unfold zlen. rewrite length_app. lia. Qed.

Lemma zlen_replicate {A} (n : Z) (a : A) :
  0 ≤ n → zlen (replicate (Z.to_nat n) a) = n.
Proof. unfold zlen. rewrite length_replicate. lia. Qed.

Lemma zget_replicate {A} (n k : Z) (a : A) :
  0 ≤ k < n → zget (replicate (Z.to_nat n) a) k = Some a.
Proof.
  intros. unfold zget. rewrite decide_True by lia.
  apply lookup_replicate_2. lia.
Qed.

Lemma zget_seqZ (m n k : Z) : 0 ≤ k < n → zget (seqZ m n) k = Some (m + k).
Proof.
  intros. unfold zget. rewrite decide_True by lia.
  rewrite lookup_seqZ_lt by lia. f_equal. lia.
Qed.

Lemma zlen_seqZ (m n : Z) : 0 ≤ n → zlen (seqZ m n) = n.
Proof. intros. unfold zlen. rewrite length_seqZ. lia. Qed.



(** ** Loops *)

Section Loops.
Context {St : Type}.

(** The rule for a counted loop whose counter does not wrap: an invariant
    that every iteration re-establishes holds at the exit. *)
Lemma for_loop_inv (I : Z → St → Prop) ty fuel lo hi cond body (s : St) :
  lo ≤ hi →
  (Z.to_nat (hi - lo) < fuel)%nat →
  (∀ k, lo ≤ k < hi → cond k = true ∧ ty (k + 1) = k + 1) →
  cond hi = false →
  I lo s →
  (∀ k s, lo ≤ k < hi → I k s → ∃ s', body k s = Ok s' ∧ I (k + 1) s') →
  ∃ s', for_loop ty fuel lo cond body s = Ok s' ∧ I hi s'.
Proof.
  intros Hle Hfuel Hcond Hexit Hinit Hstep.
  unfold for_loop.
  remember (Z.to_nat (hi - lo)) as n eqn:Hn.
  revert lo s fuel Hle Hfuel Hcond Hinit Hstep Hn.
  induction n as [|n IH]; intros lo s fuel Hle Hfuel Hcond Hinit Hstep Hn.
  - assert (lo = hi) as -> by lia.
    destruct fuel as [|fuel]; [lia|]. simpl. rewrite Hexit. simpl. eauto.
  - destruct fuel as [|fuel]; [lia|]. simpl.
    destruct (Hcond lo) as [-> Hty]; [lia|].
    destruct (Hstep lo s) as (s' & -> & Hs'); [lia|done|]. simpl.
    rewrite Hty.
    apply (IH (lo + 1) s' fuel); [lia|lia| |done| |lia].
    + intros k ?. apply Hcond. lia.
    + intros k s0 ? ?. apply Hstep; [lia|done].
Qed.

(** The same rule, for a loop followed by the rest of the function. *)
Lemma for_loop_bind {B} (I : Z → St → Prop) (hi : Z) ty fuel lo cond body
    (s : St) (k : St → result B) (res : result B) :
  lo ≤ hi →
  (Z.to_nat (hi - lo) < fuel)%nat →
  (∀ j, lo ≤ j < hi → cond j = true ∧ ty (j + 1) = j + 1) →
  cond hi = false →
  I lo s →
  (∀ j s, lo ≤ j < hi → I j s → ∃ s', body j s = Ok s' ∧ I (j + 1) s') →
  (∀ s', I hi s' → k s' = res) →
  bind (for_loop ty fuel lo cond body s) k = res.
Proof.
  intros Hle Hfuel Hcond Hexit Hinit Hstep Hk.
  destruct (for_loop_inv I ty fuel lo hi cond body s) as (s' & -> & Hs');
    [done..|]. simpl. by apply Hk.
Qed.

End Loops.

(** ** Lists *)

Lemma Z_nonneg_ind (P : Z → Prop) :
  P 0 → (∀ n, 0 ≤ n → P n → P (n + 1)) → ∀ n, 0 ≤ n → P n.
Proof. intros H0 HS n Hn. apply natlike_ind; [done| |done]. intros. by apply HS. Qed.

Lemma seqZ_snoc (m n : Z) : 0 ≤ n → seqZ m (n + 1) = seqZ m n ++ [m + n].
Proof. intros. rewrite seqZ_app by lia. f_equal. Qed.

Lemma bind_seqZ_snoc {A} (f : Z → list A) (n : Z) :
  0 ≤ n → seqZ 0 (n + 1) ≫= f = (seqZ 0 n ≫= f) ++ f n.
Proof. intros. by rewrite seqZ_snoc, bind_app, bind_singleton by done. Qed.

Section Slices.
Context {A : Type}.
Implicit Types (l : list A).

Lemma slice_empty l a b : b ≤ a → slice l a b = [].
Proof. intros. unfold slice. by replace (Z.to_nat (b - a)) with 0%nat by lia. Qed.

Lemma slice_all l : slice l 0 (zlen l) = l.
Proof.
  unfold slice, zlen. simpl. rewrite Z.sub_0_r, Nat2Z.id. apply firstn_all.
Qed.

Lemma slice_app l a b c :
  0 ≤ a → a ≤ b → b ≤ c → slice l a b ++ slice l b c = slice l a c.
Proof.
  intros. unfold slice.
  replace (drop (Z.to_nat b) l)
    with (drop (Z.to_nat (b - a)) (drop (Z.to_nat a) l))
    by (rewrite drop_drop; f_equal; lia).
  rewrite take_take_drop. f_equal. lia.
Qed.

Lemma zlen_slice l a b :
  0 ≤ a → a ≤ b → b ≤ zlen l → zlen (slice l a b) = b - a.
Proof.
  unfold slice, zlen. intros. rewrite length_take, length_drop. lia.
Qed.

Lemma zget_slice l a b k :
  0 ≤ a → 0 ≤ k < b - a → zget (slice l a b) k = zget l (a + k).
Proof.
  intros. unfold zget, slice. rewrite !decide_True by lia.
  rewrite lookup_take_lt by lia. rewrite lookup_drop. f_equal. lia.
Qed.

(** Slices cut at increasing offsets add up to one slice. *)
Lemma concat_slices l (p : Z → Z) (n : Z) :
  0 ≤ n → 0 ≤ p 0 → (∀ c, 0 ≤ c < n → p c ≤ p (c + 1)) →
  seqZ 0 n ≫= (λ c, slice l (p c) (p (c + 1))) = slice l (p 0) (p n)
  ∧ p 0 ≤ p n.
Proof.
  intros Hn H0. revert n Hn.
  apply (Z_nonneg_ind (λ n, _ → _ ∧ _)).
  - intros _. split; [|lia]. by rewrite slice_empty by lia.
  - intros n Hn IH Hmono.
    destruct IH as [IH Hle]; [intros; apply Hmono; lia|].
    specialize (Hmono n ltac:(lia)).
    split; [|lia].
    rewrite bind_seqZ_snoc, IH by done. apply slice_app; lia.
Qed.

End Slices.

Lemma fmap_slice {A B} (f : A → B) (l : list A) a b :
  f <$> slice l a b = slice (f <$> l) a b.
Proof. unfold slice. by rewrite fmap_take, fmap_drop. Qed.

Lemma fmap_bind_list {A B C} (f : B → C) (g : A → list B) (l : list A) :
  f <$> (l ≫= g) = l ≫= (λ x, f <$> g x).
Proof.
  induction l as [|x l IH]; [done|]. csimpl. by rewrite fmap_app, IH.
Qed.

Lemma filter_bind_list {A B} (P : B → Prop) `{!∀ x, Decision (P x)}
    (g : A → list B) (l : list A) :
  filter P (l ≫= g) = l ≫= (λ x, filter P (g x)).
Proof.
  induction l as [|x l IH]; [done|]. csimpl. by rewrite filter_app, IH.
Qed.

Lemma filter_fmap_list {A B} (P : B → Prop) `{!∀ x, Decision (P x)}
    (f : A → B) (l : list A) :
  filter P (f <$> l) = f <$> filter (λ x, P (f x)) l.
Proof.
  induction l as [|x l IH]; [done|]. csimpl.
  rewrite !filter_cons. case_decide; csimpl; by rewrite IH.
Qed.

Lemma filter_all {A} (P : A → Prop) `{!∀ x, Decision (P x)} (l : list A) :
  Forall P l → filter P l = l.
Proof.
  induction 1 as [|x l ? ? IH]; [done|]. by rewrite filter_cons_True, IH.
Qed.

Lemma filter_none {A} (P : A → Prop) `{!∀ x, Decision (P x)} (l : list A) :
  Forall (λ x, ¬ P x) l → filter P l = [].
Proof.
  induction 1 as [|x l ? ? IH]; [done|]. by rewrite filter_cons_False.
Qed.

Lemma StronglySorted_lookup {A} (R : A → A → Prop) (l : list A) i j x y :
  StronglySorted R l → (i < j)%nat →
  l !! i = Some x → l !! j = Some y → R x y.
Proof.
  intros Hs. revert i j. induction Hs as [|a l Hs IH Hall]; intros i j Hij Hi Hj.
  - by rewrite lookup_nil in Hi.
  - destruct j as [|j]; [lia|]. simpl in Hj. destruct i as [|i].
    + simpl in Hi. injection Hi as ->.
      rewrite Forall_forall in Hall. apply Hall.
      apply list_elem_of_lookup. eauto.
    + simpl in Hi. apply (IH i j); [lia|done|done].
Qed.

Lemma Sorted_le_lookup (l : list Z) a b x y :
  Sorted Z.le l → a ≤ b → zget l a = Some x → zget l b = Some y → x ≤ y.
Proof.
  intros Hs Hab Ha Hb.
  destruct (decide (a = b)) as [->|Hne]; [by simplify_eq|].
  pose proof (zget_Some_range _ _ _ Ha). pose proof (zget_Some_range _ _ _ Hb).
  unfold zget in Ha, Hb.
  rewrite decide_True in Ha by lia. rewrite decide_True in Hb by lia.
  apply Sorted_StronglySorted in Hs; [|apply _].
  eapply (StronglySorted_lookup Z.le l); [done| |done|done]. lia.
Qed.

Lemma zget_app_l {A} (l1 l2 : list A) k :
  k < zlen l1 → zget (l1 ++ l2) k = zget l1 k.
Proof.
  unfold zget, zlen. intros. case_decide; [|done].
  apply lookup_app_l. lia.
Qed.

Lemma zget_app_r {A} (l1 l2 : list A) k :
  zlen l1 ≤ k → zget (l1 ++ l2) k = zget l2 (k - zlen l1).
Proof.
  unfold zget, zlen. intros. rewrite !decide_True by lia.
  rewrite lookup_app_r by lia. f_equal. lia.
Qed.

(** *** Lists laid end to end *)

Section Tiling.
Context {A : Type} (g : Z → list A).

Lemma plen_0 : plen g 0 = 0.
Proof. done. Qed.

Lemma plen_snoc c : 0 ≤ c → plen g (c + 1) = plen g c + zlen (g c).
Proof. intros. unfold plen. by rewrite bind_seqZ_snoc, zlen_app. Qed.

Lemma zget_tiling n c k :
  0 ≤ c < n → 0 ≤ k < zlen (g c) →
  zget (seqZ 0 n ≫= g) (plen g c + k) = zget (g c) k.
Proof.
  intros Hc Hk.
  replace n with ((c + 1) + (n - (c + 1))) by lia.
  rewrite seqZ_app, bind_app by lia.
  rewrite zget_app_l; fold (plen g (c + 1)); rewrite ?plen_snoc by lia; [|lia].
  rewrite bind_seqZ_snoc by lia. fold (plen g c).
  rewrite zget_app_r; unfold plen; [|lia]. f_equal. lia.
Qed.

Lemma tiling_cover n q :
  0 ≤ n → 0 ≤ q < plen g n →
  ∃ c k, 0 ≤ c < n ∧ 0 ≤ k < zlen (g c) ∧ q = plen g c + k.
Proof.
  intros Hn. revert q. revert n Hn. apply (Z_nonneg_ind (λ n, ∀ q, _ → _)).
  - intros q. rewrite plen_0. lia.
  - intros n Hn IH q. rewrite plen_snoc by done. intros Hq.
    destruct (decide (q < plen g n)) as [Hlt|Hge].
    + destruct (IH q) as (c & k & ? & ? & ?); [lia|].
      exists c, k. split_and!; lia.
    + exists n, (q - plen g n). split_and!; lia.
Qed.

(** The piece of index [c] is the slice at its offsets. *)
Lemma slice_tiling n c :
  0 ≤ c < n → slice (seqZ 0 n ≫= g) (plen g c) (plen g (c + 1)) = g c.
Proof.
  intros Hc.
  replace n with ((c + 1) + (n - (c + 1))) by lia.
  rewrite seqZ_app, bind_app by lia.
  rewrite bind_seqZ_snoc by lia.
  rewrite plen_snoc by lia. unfold slice.
  replace (plen g c + zlen (g c) - plen g c) with (zlen (g c)) by lia.
  unfold plen, zlen. rewrite !Nat2Z.id.
  rewrite <- (assoc_L (++)). rewrite drop_app_length.
  apply take_app_length.
Qed.

End Tiling.

(** ** Counting the entries of a row *)

Section Counting.
Context {V : Type}.
Implicit Types (L : list (@entry V)) (t : @entry V).

Lemma ztake_succ {A} (l : list A) e a :
  zget l e = Some a → ztake (e + 1) l = ztake e l ++ [a].
Proof.
  intros He. pose proof (zget_Some_range _ _ _ He).
  unfold ztake, zget in *. rewrite decide_True in He by lia.
  replace (Z.to_nat (e + 1)) with (S (Z.to_nat e)) by lia.
  by apply take_S_r.
Qed.

Lemma ztake_all {A} (l : list A) e : zlen l ≤ e → ztake e l = l.
Proof. unfold ztake, zlen. intros. apply take_ge. lia. Qed.

Lemma ztake_0 {A} (l : list A) : ztake 0 l = [].
Proof. done. Qed.

Lemma ztake_drop {A} (l : list A) e a :
  zget l e = Some a →
  l = ztake e l ++ a :: drop (S (Z.to_nat e)) l.
Proof.
  intros He. pose proof (zget_Some_range _ _ _ He).
  unfold ztake, zget in *. rewrite decide_True in He by lia.
  rewrite <- (take_drop_middle _ _ _ He) at 1. done.
Qed.

Lemma rbelow_succ r L : rbelow (r + 1) L = rbelow r L + zlen (bucket r L).
Proof.
  unfold rbelow, bucket, zlen. induction L as [|t L IH]; [done|].
  rewrite !filter_cons.
  repeat case_decide; simpl length; lia.
Qed.

Lemma rbelow_mono a b L : a ≤ b → rbelow a L ≤ rbelow b L.
Proof.
  intros. unfold rbelow, zlen. induction L as [|t L IH]; [done|].
  rewrite !filter_cons. repeat case_decide; simpl length; lia.
Qed.

Lemma rbelow_none r L : Forall (λ t, r ≤ e_row t) L → rbelow r L = 0.
Proof.
  intros Hall. unfold rbelow. rewrite filter_none; [done|].
  eapply Forall_impl; [done|]. simpl. lia.
Qed.

Lemma rbelow_all r L : Forall (λ t, e_row t < r) L → rbelow r L = zlen L.
Proof. intros Hall. unfold rbelow. by rewrite filter_all. Qed.

Lemma rbelow_nonneg r L : 0 ≤ rbelow r L.
Proof. apply zlen_nonneg. Qed.

Lemma bucket_none r L : Forall (λ t, e_row t ≠ r) L → bucket r L = [].
Proof. intros. unfold bucket. by apply filter_none. Qed.

Lemma bucket_app r L1 L2 : bucket r (L1 ++ L2) = bucket r L1 ++ bucket r L2.
Proof. apply filter_app. Qed.

Lemma bucket_ztake_succ r L e t :
  zget L e = Some t →
  bucket r (ztake (e + 1) L)
  = bucket r (ztake e L) ++ (if decide (e_row t = r) then [t] else []).
Proof.
  intros He. by rewrite (ztake_succ _ _ _ He), bucket_app.
Qed.

(** The entry at offset [e] comes in its bucket right after those of the
    same row stored before it. *)
Lemma bucket_next L e t :
  zget L e = Some t →
  zget (bucket (e_row t) L) (zlen (bucket (e_row t) (ztake e L))) = Some t.
Proof.
  intros He. rewrite (ztake_drop _ _ _ He) at 1.
  rewrite bucket_app. rewrite zget_app_r by lia.
  rewrite Z.sub_diag. unfold bucket at 1. by rewrite filter_cons_True.
Qed.

Lemma bucket_ztake_lt L e t :
  zget L e = Some t →
  zlen (bucket (e_row t) (ztake e L)) < zlen (bucket (e_row t) L).
Proof.
  intros He. pose proof (bucket_next _ _ _ He) as Hn.
  apply zget_Some_range in Hn. lia.
Qed.

Lemma bucket_ztake_le r L e :
  zlen (bucket r (ztake e L)) ≤ zlen (bucket r L).
Proof.
  rewrite <- (take_drop (Z.to_nat e) L) at 2. fold (ztake e L).
  rewrite bucket_app, zlen_app. pose proof (zlen_nonneg (bucket r (drop (Z.to_nat e) L))).
  lia.
Qed.

Lemma zlen_bucket_le r L : zlen (bucket r L) ≤ zlen L.
Proof. unfold bucket, zlen. pose proof (length_filter (λ t, e_row t = r) L). lia. Qed.

Lemma zlen_ztake {A} (l : list A) e : 0 ≤ e ≤ zlen l → zlen (ztake e l) = e.
Proof. unfold zlen, ztake. intros. rewrite length_take. lia. Qed.

(** Row [r] starts where the rows before it end. *)
Lemma plen_buckets r L :
  0 ≤ r → Forall (λ t, 0 ≤ e_row t) L →
  plen (λ r, bucket r L) r = rbelow r L.
Proof.
  intros Hr Hall. revert r Hr. apply Z_nonneg_ind.
  - by rewrite rbelow_none.
  - intros r Hr IH. by rewrite plen_snoc, rbelow_succ, IH.
Qed.

End Counting.

(** ** Sorted lists *)

Lemma StronglySorted_seqZ (m n : Z) : StronglySorted Z.lt (seqZ m n).
Proof.
  destruct (decide (0 ≤ n)) as [Hn|Hn]; [|rewrite seqZ_nil by lia; constructor].
  revert n Hn. apply Z_nonneg_ind; [constructor|].
  intros n Hn IH. rewrite seqZ_snoc by done.
  apply StronglySorted_app_2; [|done|repeat constructor].
  intros x1 x2 Hx1%elem_of_seqZ Hx2%list_elem_of_singleton. lia.
Qed.


(** Pieces that are empty or hold their own index line up in order. *)
Lemma StronglySorted_pieces (g : Z → list Z) (n : Z) :
  (∀ c, 0 ≤ c < n → g c = [] ∨ g c = [c]) →
  StronglySorted Z.lt (seqZ 0 n ≫= g)
  ∧ Forall (λ x, 0 ≤ x < n) (seqZ 0 n ≫= g).
Proof.
  destruct (decide (0 ≤ n)) as [Hn|Hn];
    [|rewrite seqZ_nil by lia; split; constructor].
  revert n Hn. apply (Z_nonneg_ind (λ n, _ → _ ∧ _)).
  - intros _. split; constructor.
  - intros n Hn IH Hg. rewrite bind_seqZ_snoc by done.
    destruct IH as [IHs IHr]; [intros; apply Hg; lia|].
    assert (Forall (λ x, 0 ≤ x < n + 1) (seqZ 0 n ≫= g)) as IHr'
      by (eapply Forall_impl; [done|]; simpl; lia).
    destruct (Hg n ltac:(lia)) as [->| ->].
    + by rewrite app_nil_r.
    + split.
      * apply StronglySorted_app_2; [|done|repeat constructor].
        intros x1 x2 Hx1 Hx2%list_elem_of_singleton.
        rewrite Forall_forall in IHr. apply IHr in Hx1. lia.
      * apply Forall_app. split; [done|]. repeat constructor; lia.
Qed.

(** A strictly increasing list has each value at most once. *)
Lemma filter_sorted_pairs {X} (l : list (Z * X)) (r : Z) :
  StronglySorted Z.lt l.*1 →
  (length (filter (λ rv, rv.1 = r) l) ≤ 1)%nat.
Proof.
  induction l as [|[a x] l IH]; [simpl; lia|].
  csimpl. intros [Hall Hs]%StronglySorted_cons.
  rewrite filter_cons. simpl. case_decide as Ha; [|by apply IH].
  rewrite filter_none; [simpl; lia|].
  rewrite Forall_fmap in Hall. eapply Forall_impl; [done|]. simpl. lia.
Qed.

Section BucketSort.
Context {V : Type}.
Implicit Types (X : list (@entry V)).





Lemma elem_of_by_row_list X n t :
  t ∈ seqZ 0 n ≫= (λ r, bucket r X) ↔ t ∈ X ∧ 0 ≤ e_row t < n.
Proof.
  rewrite list_elem_of_bind. split.
  - intros (r & [Hr Ht]%list_elem_of_filter & Hin%elem_of_seqZ). split; [done|lia].
  - intros [Ht Hr]. exists (e_row t). split.
    + by apply list_elem_of_filter.
    + apply elem_of_seqZ. lia.
Qed.

End BucketSort.

(** ** Consequences of the layout invariants *)

Section Layout.
Context {V : Type} `{!Scalar V} (M : spmat V) (Hwf : wf_csc M).

Lemma nrows_nonneg : 0 ≤ nrows M.
Proof. apply Hwf. Qed.

Lemma ncols_nonneg : 0 ≤ ncols M.
Proof. apply Hwf. Qed.

Lemma zlen_sp_p : zlen (sp_p M) = ncols M + 1.
Proof. apply Hwf. Qed.

Lemma colptr_get c : 0 ≤ c ≤ ncols M → zget (sp_p M) c = Some (colptr M c).
Proof.
  intros Hc. unfold colptr.
  destruct (zget_in_range (sp_p M) c) as [v ->]; [rewrite zlen_sp_p; lia|done].
Qed.

Lemma colptr_0 : colptr M 0 = 0.
Proof. unfold colptr. by replace (zget (sp_p M) 0) with (Some 0) by (symmetry; apply Hwf). Qed.

Lemma colptr_mono a b : 0 ≤ a → a ≤ b → b ≤ ncols M → colptr M a ≤ colptr M b.
Proof.
  intros. eapply (Sorted_le_lookup (sp_p M) a b); [apply Hwf|done|..];
    apply colptr_get; lia.
Qed.

Lemma colptr_range c : 0 ≤ c ≤ ncols M → 0 ≤ colptr M c ≤ nnz M.
Proof.
  intros. split.
  - rewrite <- colptr_0. apply colptr_mono; lia.
  - apply colptr_mono; lia.
Qed.

Lemma nnz_nonneg : 0 ≤ nnz M.
Proof. apply (colptr_range (ncols M)). pose proof ncols_nonneg. lia. Qed.

Lemma zlen_sp_i : zlen (sp_i M) = nnz M.
Proof. apply Hwf. Qed.

Lemma zlen_sp_x : zlen (sp_x M) = nnz M.
Proof. apply Hwf. Qed.

Lemma sp_i_range e r : zget (sp_i M) e = Some r → 0 ≤ r < nrows M.
Proof.
  intros He. pose proof (zget_Some_range _ _ _ He).
  unfold zget in He. rewrite decide_True in He by lia.
  destruct Hwf as (_&_&_&_&_&_&_&Hall).
  by apply (Forall_lookup_1 _ _ _ _ Hall He).
Qed.

Lemma zlen_zip_ix : zlen (zip (sp_i M) (sp_x M)) = nnz M.
Proof.
  pose proof zlen_sp_i. pose proof zlen_sp_x. unfold zlen in *.
  rewrite length_zip_with. lia.
Qed.

(** The stored entries with their column erased. *)
Lemma entries_untagged :
  (λ t, (e_row t, e_val t)) <$> entries M = zip (sp_i M) (sp_x M).
Proof.
  unfold entries. rewrite fmap_bind_list.
  erewrite list_bind_ext; [| |done].
  2:{ intros c. rewrite <- list_fmap_compose.
      erewrite list_fmap_ext; [apply list_fmap_id|]. by intros i [r v] _. }
  unfold column.
  destruct (concat_slices (zip (sp_i M) (sp_x M)) (colptr M) (ncols M))
    as [-> _].
  - apply ncols_nonneg.
  - rewrite colptr_0. lia.
  - intros c Hc. apply colptr_mono; lia.
  - rewrite colptr_0. fold (nnz M). rewrite <- zlen_zip_ix. apply slice_all.
Qed.

Lemma entries_rows : e_row <$> entries M = sp_i M.
Proof.
  transitivity ((λ t, (e_row t, e_val t)) <$> entries M).*1.
  - by rewrite <- list_fmap_compose.
  - rewrite entries_untagged. apply fst_zip.
    pose proof zlen_sp_i. pose proof zlen_sp_x. unfold zlen in *. lia.
Qed.

Lemma entries_vals : e_val <$> entries M = sp_x M.
Proof.
  transitivity ((λ t, (e_row t, e_val t)) <$> entries M).*2.
  - by rewrite <- list_fmap_compose.
  - rewrite entries_untagged. apply snd_zip.
    pose proof zlen_sp_i. pose proof zlen_sp_x. unfold zlen in *. lia.
Qed.

Lemma zlen_entries : zlen (entries M) = nnz M.
Proof. by rewrite <- zlen_sp_i, <- entries_rows, zlen_fmap. Qed.

(** The entry at offset [e], read from the arrays. *)
Lemma entry_at e :
  0 ≤ e < nnz M →
  ∃ t, zget (entries M) e = Some t ∧
       zget (sp_i M) e = Some (e_row t) ∧ zget (sp_x M) e = Some (e_val t) ∧
       0 ≤ e_row t < nrows M.
Proof.
  intros He.
  destruct (zget_in_range (entries M) e) as [t Ht]; [by rewrite zlen_entries|].
  assert (zget (sp_i M) e = Some (e_row t)) as Hr
    by (by rewrite <- entries_rows, zget_fmap, Ht).
  exists t. split; [done|]. split; [done|].
  split; [|by apply (sp_i_range e)].
  by rewrite <- entries_vals, zget_fmap, Ht.
Qed.

Lemma entries_rows_range : Forall (λ t, 0 ≤ e_row t < nrows M) (entries M).
Proof.
  destruct Hwf as (_&_&_&_&_&_&_&Hall).
  rewrite <- entries_rows in Hall. by apply Forall_fmap in Hall.
Qed.

Lemma rbelow_0 : rbelow 0 (entries M) = 0.
Proof.
  apply rbelow_none. eapply Forall_impl; [apply entries_rows_range|].
  simpl. lia.
Qed.

Lemma rbelow_nrows r : nrows M ≤ r → rbelow r (entries M) = nnz M.
Proof.
  intros. rewrite <- zlen_entries. apply rbelow_all.
  eapply Forall_impl; [apply entries_rows_range|]. simpl. lia.
Qed.

Lemma rbelow_le_nnz r : rbelow r (entries M) ≤ nnz M.
Proof.
  rewrite <- (rbelow_nrows (Z.max r (nrows M))) by lia.
  apply rbelow_mono. lia.
Qed.

Lemma bucket_outside_all r : ¬ (0 ≤ r < nrows M) → bucket r (entries M) = [].
Proof.
  intros Hr. apply bucket_none.
  eapply Forall_impl; [apply entries_rows_range|]. simpl. lia.
Qed.

Lemma zlen_column c :
  0 ≤ c < ncols M → zlen (column M c) = colptr M (c + 1) - colptr M c.
Proof.
  intros. unfold column. apply zlen_slice.
  - apply colptr_range. lia.
  - apply colptr_mono; lia.
  - rewrite zlen_zip_ix. apply colptr_range. lia.
Qed.

(** Column [c] starts at offset [colptr M c] of the entry list. *)
Lemma plen_columns c :
  0 ≤ c ≤ ncols M →
  plen (λ c, tag c <$> column M c) c = colptr M c.
Proof.
  intros [Hc Hle]. revert c Hc Hle. apply (Z_nonneg_ind (λ c, _ → _)).
  - intros _. by rewrite colptr_0.
  - intros c Hc IH Hle. rewrite plen_snoc, IH, zlen_fmap, zlen_column by lia.
    lia.
Qed.

(** The entry at offset [e], when [e] lies in column [c]. *)
Lemma entries_lookup c e :
  0 ≤ c < ncols M → colptr M c ≤ e < colptr M (c + 1) →
  ∃ r v, zget (sp_i M) e = Some r ∧ zget (sp_x M) e = Some v
         ∧ zget (entries M) e = Some (r, c, v).
Proof.
  intros Hc He.
  pose proof (colptr_range c ltac:(lia)).
  pose proof (colptr_range (c + 1) ltac:(lia)).
  destruct (zget_in_range (sp_i M) e) as [r Hr]; [rewrite zlen_sp_i; lia|].
  destruct (zget_in_range (sp_x M) e) as [v Hv]; [rewrite zlen_sp_x; lia|].
  exists r, v. split_and!; [done|done|].
  unfold entries.
  replace e with (plen (λ c, tag c <$> column M c) c + (e - colptr M c)) at 1
    by (rewrite plen_columns; lia).
  rewrite zget_tiling; [|lia|rewrite zlen_fmap, zlen_column by lia; lia].
  rewrite zget_fmap. unfold column.
  rewrite zget_slice by lia.
  replace (colptr M c + (e - colptr M c)) with e by lia.
  unfold zget in *.
  rewrite decide_True in Hr by lia. rewrite decide_True in Hv by lia.
  rewrite decide_True by lia.
  rewrite (proj2 (lookup_zip_with_Some pair (sp_i M) (sp_x M) (Z.to_nat e) (r, v)));
    [done|eauto].
Qed.

End Layout.


(** ** The transpose computes [transposed] *)

(** ** The three bounds *)

Lemma fits_fits_rows {V} B (M : spmat V) : fits B M → fits_rows B M.
Proof. unfold fits, fits_rows. lia. Qed.

Lemma fits_rows_count {V} B (M : spmat V) : fits_rows B M → fits_count B M.
Proof. unfold fits_rows, fits_count. lia. Qed.

Lemma fits_fits_count {V} B (M : spmat V) : fits B M → fits_count B M.
Proof. unfold fits, fits_count. lia. Qed.

Lemma fits_rows_mono {V} B B' (M : spmat V) :
  B ≤ B' → fits_rows B M → fits_rows B' M.
Proof. unfold fits_rows. lia. Qed.

Section Refinement.
Context {V : Type} `{!Scalar V}.
Context (W : Width) (B : Z).
Context (HB : B ≤ 2 ^ 64).
Context (Hcnt : ∀ z, 0 ≤ z < B → cnt W z = z).
Context (Helt : ∀ z, 0 ≤ z < B → elt W z = z).
Context (M : spmat V) (Hwf : wf_csc M) (Hfits : fits_rows B M).

Lemma zlen_nil {X} : zlen (@nil X) = 0.
Proof. done. Qed.

Lemma zlen_singleton {X} (a : X) : zlen [a] = 1.
Proof. done. Qed.

Lemma bind_Ok {X Y} (a : X) (k : X → result Y) : bind (Ok a) k = k a.
Proof. done. Qed.

Lemma size_t_small z : 0 ≤ z < B → to_size_t z = z.
Proof. intros. apply to_size_t_id. lia. Qed.

Lemma ld_Ok l k v : zget l k = Some v → 0 ≤ v < B → ld W l k = Ok v.
Proof.
  intros Hk Hv. unfold ld. rewrite (rd_Ok _ _ _ Hk). simpl. by rewrite Helt.
Qed.

Lemma skip_columns_ok e cid :
  0 ≤ e < nnz M → 0 ≤ cid ≤ ncols M → colptr M cid ≤ e →
  ∃ c, skip_columns W M e cid = Ok c ∧
       cid ≤ c < ncols M ∧ colptr M c ≤ e < colptr M (c + 1).
Proof.
  intros He Hcid Hle. unfold skip_columns.
  destruct Hfits as (Hfr & Hfc & Hfn).
  assert (Z.to_nat (ncols M - cid) < S (length (sp_p M)))%nat as Hfuel.
  { pose proof (zlen_sp_p M Hwf). unfold zlen in *. lia. }
  revert Hfuel. generalize (S (length (sp_p M))) as fuel.
  remember (Z.to_nat (ncols M - cid)) as n eqn:Hn.
  revert cid Hcid Hle Hn. induction n as [|n IH]; intros cid Hcid Hle Hn fuel Hfuel.
  - assert (cid = ncols M) as -> by lia. fold (nnz M) in Hle. lia.
  - destruct fuel as [|fuel]; [lia|]. simpl.
    rewrite Hcnt by lia.
    pose proof (colptr_range M Hwf (cid + 1) ltac:(lia)).
    rewrite (ld_Ok _ _ (colptr M (cid + 1))); [|apply colptr_get; [done|lia]|lia].
    simpl. rewrite size_t_small by lia.
    destruct (Z.leb_spec (colptr M (cid + 1)) e) as [Hc|Hc]; simpl.
    + destruct (IH (cid + 1)) with (fuel := fuel) as (c & Hc' & ? & ?);
        [lia|lia|lia|lia|].
      exists c. split; [done|]. lia.
    + exists cid. split; [done|]. lia.
Qed.

Lemma clear_step_ok r p :
  0 ≤ r < nrows M + 1 → inv_clear M r p →
  ∃ p', clear_step r p = Ok p' ∧ inv_clear M (r + 1) p'.
Proof.
  intros Hr ->. unfold clear_step, inv_clear.
  rewrite wr_Ok by (rewrite zlen_replicate; lia).
  eexists. split; [done|]. apply list_insert_id.
  apply lookup_replicate_2. lia.
Qed.

Lemma count_step_ok e p :
  0 ≤ e < nnz M → inv_count M e p →
  ∃ p', count_step W M e p = Ok p' ∧ inv_count M (e + 1) p'.
Proof.
  intros He [Hlen Hp]. destruct Hfits as (Hfr & Hfc & Hfn).
  destruct (entry_at M Hwf e He) as (t & Ht & Hi & Hx & Hr).
  unfold count_step. rewrite (ld_Ok _ _ _ Hi) by lia. simpl.
  rewrite Helt by lia.
  rewrite (rd_Ok _ _ _ (Hp (e_row t + 1) ltac:(lia))). simpl.
  rewrite wr_Ok by lia. eexists. split; [done|].
  split; [by rewrite zlen_insert|]. intros k Hk.
  rewrite (bucket_ztake_succ _ _ _ _ Ht), zlen_app.
  destruct (decide (e_row t + 1 = k)) as [<-|Hne].
  - rewrite zget_insert_eq by lia.
    replace (e_row t + 1 - 1) with (e_row t) by lia.
    rewrite decide_True by done.
    pose proof (zlen_bucket_le (e_row t) (ztake e (entries M))).
    rewrite zlen_ztake in * by (rewrite zlen_entries; [lia|done]).
    rewrite zlen_singleton.
    rewrite Helt; [done|]. pose proof (zlen_nonneg (bucket (e_row t) (ztake e (entries M)))).
    lia.
  - rewrite zget_insert_ne by lia. rewrite Hp by done.
    rewrite decide_False by lia. rewrite zlen_nil. f_equal. lia.
Qed.

Lemma sum_step_ok r p :
  1 ≤ r < nrows M + 1 → inv_sum M r p →
  ∃ p', sum_step W r p = Ok p' ∧ inv_sum M (r + 1) p'.
Proof.
  intros Hr (Hlen & Hlo & Hhi). destruct Hfits as (Hfr & Hfc & Hfn).
  unfold sum_step.
  rewrite (rd_Ok _ _ _ (Hhi r ltac:(lia))). simpl.
  rewrite Hcnt by lia.
  rewrite (rd_Ok _ _ _ (Hlo (r - 1) ltac:(lia))). simpl.
  rewrite wr_Ok by lia. eexists. split; [done|].
  pose proof (rbelow_succ (r - 1) (entries M)) as Hs.
  replace (r - 1 + 1) with r in Hs by lia.
  pose proof (rbelow_le_nnz M Hwf r). pose proof (rbelow_nonneg r (entries M)).
  split_and!.
  - by rewrite zlen_insert.
  - intros k Hk. destruct (decide (r = k)) as [<-|Hne].
    + rewrite zget_insert_eq by lia. rewrite Helt by lia. f_equal. lia.
    + rewrite zget_insert_ne by lia. apply Hlo. lia.
  - intros k Hk. rewrite zget_insert_ne by lia. apply Hhi. lia.
Qed.

Lemma scatter_step_ok e st :
  0 ≤ e < nnz M → inv_scatter M e st →
  ∃ st', scatter_step W M e st = Ok st' ∧ inv_scatter M (e + 1) st'.
Proof.
  intros He Hinv. destruct st as [[[p ti] tx] cid].
  destruct Hinv as (Hlp & Hli & Hlx & Hp & Hb & Hcid & Hce).
  destruct Hfits as (Hfr & Hfc & Hfn).
  destruct (entry_at M Hwf e He) as (t & Ht & Hi & Hx & Hr).
  unfold scatter_step. rewrite (ld_Ok _ _ _ Hi) by lia. simpl.
  rewrite Hcnt by lia. rewrite (rd_Ok _ _ _ Hx). simpl.
  destruct (skip_columns_ok e cid) as (c & -> & Hc1 & Hc2); [done..|]. simpl.
  assert (e_col t = c) as Hcol.
  { destruct (entries_lookup M Hwf c e) as (r' & v' & _ & _ & Ht'); [lia|done|].
    rewrite Ht in Ht'. by injection Ht' as ->. }
  rewrite (rd_Ok _ _ _ (Hp (e_row t) ltac:(lia))). simpl.
  pose proof (bucket_ztake_lt _ _ _ Ht) as Hlt.
  pose proof (rbelow_succ (e_row t) (entries M)) as Hsucc.
  pose proof (rbelow_le_nnz M Hwf (e_row t + 1)).
  pose proof (rbelow_nonneg (e_row t) (entries M)).
  pose proof (zlen_nonneg (bucket (e_row t) (ztake e (entries M)))).
  set (q := rbelow (e_row t) (entries M)
            + zlen (bucket (e_row t) (ztake e (entries M)))) in *.
  rewrite Hcnt by lia.
  rewrite wr_Ok by lia. simpl. rewrite wr_Ok by lia. simpl.
  rewrite wr_Ok by lia. eexists. split; [done|].
  unfold inv_scatter. rewrite !zlen_insert.
  split; [done|]. split; [done|]. split; [done|].
  split; [|split; [|lia]].
  - intros r Hrr. rewrite (bucket_ztake_succ _ _ _ _ Ht), zlen_app.
    destruct (decide (e_row t = r)) as [<-|Hne].
    + rewrite zget_insert_eq by lia. rewrite Helt by lia.
      rewrite zlen_singleton. f_equal. unfold q. lia.
    + rewrite zget_insert_ne by lia. rewrite Hp by done.
      rewrite zlen_nil. f_equal. lia.
  - intros r k t0. rewrite (bucket_ztake_succ _ _ _ _ Ht).
    destruct (decide (e_row t = r)) as [<-|Hne].
    + intros Hk. pose proof (zget_Some_range _ _ _ Hk) as Hkr.
      rewrite zlen_app, zlen_singleton in Hkr.
      destruct (decide (k < zlen (bucket (e_row t) (ztake e (entries M)))))
        as [Hin|Hout].
      * rewrite zget_app_l in Hk by done.
        rewrite !zget_insert_ne by (unfold q; lia). by apply Hb.
      * rewrite zget_app_r in Hk by lia.
        replace (k - zlen (bucket (e_row t) (ztake e (entries M)))) with 0
          in Hk by lia.
        injection Hk as <-.
        replace (rbelow (e_row t) (entries M) + k) with q by (unfold q; lia).
        rewrite !zget_insert_eq by lia. rewrite Hcol, Helt by lia. done.
    + rewrite app_nil_r. intros Hk.
      pose proof (zget_Some_range _ _ _ Hk) as Hkr.
      pose proof (bucket_ztake_le r (entries M) e).
      pose proof (rbelow_succ r (entries M)).
      assert (rbelow r (entries M) + k ≠ q).
      { destruct (decide (r < e_row t)).
        - pose proof (rbelow_mono (r + 1) (e_row t) (entries M)). unfold q. lia.
        - pose proof (rbelow_mono (e_row t + 1) r (entries M)). lia. }
      rewrite !zget_insert_ne by lia. by apply Hb.
Qed.

Lemma shift_step_ok r st :
  1 ≤ r < nrows M + 1 → inv_shift M r st →
  ∃ st', shift_step r st = Ok st' ∧ inv_shift M (r + 1) st'.
Proof.
  intros Hr Hinv. destruct st as [off p].
  destruct Hinv as (Hlen & Hlo & Hhi & ->).
  unfold shift_step. rewrite (rd_Ok _ _ _ (Hhi r ltac:(lia))). simpl.
  rewrite wr_Ok by lia. eexists. split; [done|].
  unfold inv_shift. rewrite zlen_insert. split_and!; [done| | |done].
  - intros k Hk. destruct (decide (r = k)) as [<-|Hne].
    + by rewrite zget_insert_eq by lia.
    + rewrite zget_insert_ne by lia. apply Hlo. lia.
  - intros k Hk. rewrite zget_insert_ne by lia. apply Hhi. lia.
Qed.

(** What the invariants say at the exit. *)
Lemma offsets_final p :
  zlen p = nrows M + 1 →
  (∀ k, 0 ≤ k < nrows M + 1 → zget p k = Some (rbelow k (entries M))) →
  p = row_start M <$> seqZ 0 (nrows M + 1).
Proof.
  intros Hlen Hp. pose proof (nrows_nonneg M Hwf).
  apply zget_ext.
  - rewrite zlen_fmap, zlen_seqZ by lia. done.
  - intros k Hk. rewrite zget_fmap, zget_seqZ by lia. simpl.
    rewrite Z.add_0_l. apply Hp. lia.
Qed.

Lemma zlen_by_row : zlen (by_row M) = nnz M.
Proof.
  pose proof (nrows_nonneg M Hwf).
  change (zlen (by_row M)) with (plen (λ r, bucket r (entries M)) (nrows M)).
  rewrite plen_buckets; [by apply rbelow_nrows|done|].
  eapply Forall_impl; [apply (entries_rows_range M Hwf)|]. simpl. lia.
Qed.

Lemma scattered_final {X} (f : entry → X) (l : list X) :
  zlen l = nnz M →
  (∀ r k t, zget (bucket r (entries M)) k = Some t →
     zget l (rbelow r (entries M) + k) = Some (f t)) →
  l = f <$> by_row M.
Proof.
  intros Hlen Hl. pose proof (nrows_nonneg M Hwf).
  assert (Forall (λ t : entry, 0 ≤ e_row t) (entries M)) as Hpos.
  { eapply Forall_impl; [apply (entries_rows_range M Hwf)|]. simpl. lia. }
  apply zget_ext; [by rewrite zlen_fmap, zlen_by_row|].
  intros q Hq.
  destruct (tiling_cover (λ r, bucket r (entries M)) (nrows M) q)
    as (r & k & Hr & Hk & ->); [done| |].
  { rewrite plen_buckets, rbelow_nrows by (done || lia). lia. }
  rewrite zget_fmap. unfold by_row. rewrite zget_tiling by done.
  destruct (zget_in_range _ _ Hk) as [t Ht]. rewrite Ht. simpl.
  rewrite plen_buckets by (done || lia). by apply Hl.
Qed.

(** The transpose returns, and returns [transposed M]. *)
Theorem transpose_refines : transpose W M = Ok (transposed M).
Proof.
  pose proof (nrows_nonneg M Hwf) as Hnr.
  pose proof (ncols_nonneg M Hwf) as Hnc.
  pose proof (nnz_nonneg M Hwf) as Hnn.
  pose proof (zlen_sp_i M Hwf) as Hli.
  destruct Hfits as (Hfr & Hfc & Hfn).
  unfold transpose. cbv zeta.
  change (sp_Dim M).1 with (nrows M). change (sp_Dim M).2 with (ncols M).
  rewrite !(Hcnt (nrows M)), !(Hcnt (ncols M)) by lia.
  rewrite (ld_Ok _ _ (nnz M)); [|apply colptr_get; [done|lia]|lia].
  rewrite bind_Ok. rewrite !(Hcnt (nnz M)) by lia.
  rewrite (size_t_small (nnz M)), (size_t_small (nrows M)) by lia.
  unfold new_spmat. cbn [sp_p sp_i sp_x].
  (* step 1 *)
  apply (for_loop_bind (inv_clear M) (nrows M + 1)).
  { lia. }
  { rewrite length_replicate. lia. }
  { intros j Hj. split; [lia|]. apply Hcnt. lia. }
  { lia. }
  { done. }
  { intros j s Hj. by apply clear_step_ok. }
  intros p0 ->.
  apply (for_loop_bind (inv_count M) (nnz M)).
  { lia. }
  { unfold zlen in *. lia. }
  { intros j Hj. split; [lia|]. apply Hcnt. lia. }
  { lia. }
  { split; [by rewrite zlen_replicate by lia|]. intros k Hk.
    by rewrite zget_replicate by lia. }
  { intros j s Hj. by apply count_step_ok. }
  intros p1 [Hlen1 Hp1].
  rewrite ztake_all in Hp1 by (rewrite zlen_entries; [lia|done]).
  (* step 2 *)
  apply (for_loop_bind (inv_sum M) (nrows M + 1)).
  { lia. }
  { unfold zlen in *. lia. }
  { intros j Hj. split; [lia|]. apply Hcnt. lia. }
  { lia. }
  { split; [done|]. split; [|intros; apply Hp1; lia].
    intros k Hk. assert (k = 0) as -> by lia.
    rewrite Hp1 by lia. rewrite bucket_outside_all by (done || lia).
    by rewrite rbelow_0. }
  { intros j s Hj. by apply sum_step_ok. }
  intros p2 (Hlen2 & Hp2 & _).
  (* step 3 *)
  apply (for_loop_bind (inv_scatter M) (nnz M)).
  { lia. }
  { unfold zlen in *. lia. }
  { intros j Hj. split; [lia|]. apply size_t_small. lia. }
  { lia. }
  { unfold inv_scatter. rewrite !zlen_replicate by lia.
    split; [done|]. split; [done|]. split; [done|].
    split; [|split; [|rewrite (colptr_0 M Hwf); lia]].
    - intros r Hr. rewrite Hp2 by lia. rewrite ztake_0. f_equal.
      unfold bucket. rewrite filter_nil, zlen_nil. lia.
    - intros r k t. rewrite ztake_0. unfold bucket. rewrite filter_nil.
      unfold zget. case_decide; [|done]. by rewrite lookup_nil. }
  { intros j s Hj. by apply scatter_step_ok. }
  intros [[[p3 ti] tx] cid] (Hlen3 & Hlti & Hltx & Hp3 & Hb3 & _).
  rewrite ztake_all in Hp3, Hb3 by (rewrite zlen_entries; [lia|done]).
  (* step 4 *)
  rewrite (rd_Ok _ _ _ (Hp3 0 ltac:(lia))), bind_Ok.
  rewrite wr_Ok, bind_Ok by lia.
  apply (for_loop_bind (inv_shift M) (nrows M + 1)).
  { lia. }
  { rewrite length_insert. unfold zlen in *. lia. }
  { intros j Hj. split; [lia|]. apply size_t_small. lia. }
  { lia. }
  { unfold inv_shift. rewrite zlen_insert.
    split_and!; [done| | |].
    - intros k Hk. assert (k = 0) as -> by lia.
      rewrite zget_insert_eq by lia. by rewrite rbelow_0.
    - intros k Hk. rewrite zget_insert_ne by lia. rewrite Hp3 by lia.
      by rewrite rbelow_succ.
    - by rewrite (rbelow_succ 0). }
  { intros j s Hj. by apply shift_step_ok. }
  intros [off p4] (Hlen4 & Hp4 & _). cbn [snd].
  f_equal. unfold transposed. f_equal.
  - by apply scattered_final; [|intros; apply Hb3].
  - apply offsets_final; [done|]. intros; apply Hp4; lia.
  - by apply scattered_final; [|intros; apply Hb3].
Qed.

End Refinement.

(** ** The matrix [transposed M] *)

Section Transposed.
Context {V : Type} `{!Scalar V} (M : spmat V) (Hwf : wf_csc M).

Lemma colptr_transposed r :
  0 ≤ r ≤ nrows M → colptr (transposed M) r = rbelow r (entries M).
Proof.
  intros Hr. unfold colptr. cbn [transposed sp_p].
  rewrite zget_fmap, zget_seqZ by lia. simpl. by rewrite Z.add_0_l.
Qed.

Lemma nnz_transposed : nnz (transposed M) = nnz M.
Proof.
  pose proof (nrows_nonneg M Hwf).
  unfold nnz at 1. change (ncols (transposed M)) with (nrows M).
  rewrite colptr_transposed by lia. by apply rbelow_nrows.
Qed.

Lemma entries_cols_range : Forall (λ t, 0 ≤ e_col t < ncols M) (entries M).
Proof.
  unfold entries. apply Forall_bind, Forall_seqZ. intros c Hc. simpl.
  apply Forall_fmap, Forall_forall. intros rv _. simpl. unfold e_col. simpl. lia.
Qed.

Lemma by_row_subset t : t ∈ by_row M ↔ t ∈ entries M.
Proof.
  unfold by_row. rewrite elem_of_by_row_list. split; [by intros [? _]|].
  intros Ht. split; [done|].
  pose proof (entries_rows_range M Hwf) as Hall.
  rewrite Forall_forall in Hall. by apply Hall.
Qed.

Lemma column_transposed r :
  0 ≤ r < nrows M →
  column (transposed M) r = (λ t, (e_col t, e_val t)) <$> bucket r (entries M).
Proof.
  intros Hr. unfold column.
  change (sp_i (transposed M)) with (e_col <$> by_row M).
  change (sp_x (transposed M)) with (e_val <$> by_row M).
  rewrite zip_with_fmap_l, zip_with_fmap_r, zip_with_diag.
  rewrite !colptr_transposed by lia. rewrite <- fmap_slice. f_equal.
  assert (Forall (λ t : entry, 0 ≤ e_row t) (entries M)) as Hpos.
  { eapply Forall_impl; [apply (entries_rows_range M Hwf)|]. simpl. lia. }
  rewrite <- !(plen_buckets _ (entries M)) by (done || lia).
  unfold by_row. by apply (slice_tiling (λ r, bucket r (entries M))).
Qed.

(** The transposed matrix stores the entries row after row, flipped. *)
Lemma entries_transposed : entries (transposed M) = flip <$> by_row M.
Proof.
  unfold entries at 1. change (ncols (transposed M)) with (nrows M).
  unfold by_row. rewrite fmap_bind_list. apply Forall_bind_ext, Forall_seqZ.
  intros r Hr. rewrite column_transposed by lia.
  rewrite <- list_fmap_compose. apply list_fmap_ext.
  intros i t Ht. apply list_elem_of_lookup_2 in Ht.
  apply list_elem_of_filter in Ht as [Hrow _]. unfold flip. simpl.
  by rewrite Hrow.
Qed.

Lemma elem_of_entries_transposed r c v :
  (c, r, v) ∈ entries (transposed M) ↔ (r, c, v) ∈ entries M.
Proof.
  rewrite entries_transposed, list_elem_of_fmap. split.
  - intros ([[r' c'] v'] & Heq & Hin). apply by_row_subset in Hin.
    unfold flip, e_col, e_row, e_val in Heq. simpl in Heq. by simplify_eq.
  - intros Hin. exists (r, c, v). split; [done|]. by apply by_row_subset.
Qed.

Lemma wf_transposed : wf_csc (transposed M).
Proof.
  pose proof (nrows_nonneg M Hwf). pose proof (ncols_nonneg M Hwf).
  unfold wf_csc. rewrite nnz_transposed.
  change (nrows (transposed M)) with (ncols M).
  change (ncols (transposed M)) with (nrows M).
  change (sp_i (transposed M)) with (e_col <$> by_row M).
  change (sp_x (transposed M)) with (e_val <$> by_row M).
  change (sp_p (transposed M)) with (row_start M <$> seqZ 0 (nrows M + 1)).
  rewrite !zlen_fmap, zlen_seqZ, (zlen_by_row M Hwf) by lia.
  split_and!; try done.
  - rewrite zget_fmap, zget_seqZ by lia. simpl. unfold row_start.
    rewrite Z.add_0_l. by rewrite (rbelow_0 M Hwf).
  - apply StronglySorted_Sorted.
    apply (StronglySorted_fmap _ Z.lt Z.le); [|apply StronglySorted_seqZ].
    intros x y Hxy. apply rbelow_mono. lia.
  - apply Forall_fmap, Forall_forall. intros t Ht%by_row_subset.
    pose proof entries_cols_range as Hall. rewrite Forall_forall in Hall.
    by apply Hall.
Qed.

End Transposed.

Lemma bind_nil_list {A B} (f : A → list B) (l : list A) :
  Forall (λ x, f x = []) l → l ≫= f = [].
Proof. induction 1 as [|x l Hx _ IH]; [done|]. csimpl. by rewrite Hx, IH. Qed.

Section Tagged.
Context {V : Type} (g : Z → list (Z * V)).

Lemma filter_tag_ne c c' :
  c' ≠ c → filter (λ t, e_col t = c) (@tag V c' <$> g c') = [].
Proof.
  intros. apply filter_none, Forall_fmap, Forall_forall. by intros rv _.
Qed.

(** The entries of column [c] are the tagged piece of index [c]. *)
Lemma filter_tag_eq n c :
  0 ≤ c < n →
  filter (λ t, e_col t = c) (seqZ 0 n ≫= (λ c, @tag V c <$> g c))
  = tag c <$> g c.
Proof.
  intros Hc. rewrite filter_bind_list.
  replace n with (c + (1 + (n - (c + 1)))) by lia.
  rewrite !seqZ_app, !bind_app by lia.
  rewrite bind_nil_list, app_nil_l.
  2:{ apply Forall_seqZ. intros c' Hc'. apply filter_tag_ne. lia. }
  rewrite (bind_nil_list _ (seqZ _ (n - _))), app_nil_r.
  2:{ apply Forall_seqZ. intros c' Hc'. apply filter_tag_ne. lia. }
  rewrite Z.add_0_l. change (seqZ c 1) with [c]. rewrite bind_singleton.
  apply filter_all, Forall_fmap, Forall_forall. by intros rv _.
Qed.

(** The entries of the columns before [c] are the first [c] pieces. *)
Lemma filter_tag_lt n c :
  0 ≤ c ≤ n →
  filter (λ t, e_col t < c) (seqZ 0 n ≫= (λ c, @tag V c <$> g c))
  = seqZ 0 c ≫= (λ c, tag c <$> g c).
Proof.
  intros Hc. rewrite filter_bind_list.
  replace n with (c + (n - c)) at 1 by lia.
  rewrite seqZ_app, bind_app by lia.
  rewrite (bind_nil_list _ (seqZ _ (n - c))), app_nil_r.
  2:{ apply Forall_seqZ. intros c' Hc'.
      apply filter_none, Forall_fmap, Forall_forall. intros rv _.
      unfold e_col. simpl. lia. }
  apply Forall_bind_ext, Forall_seqZ. intros c' Hc'.
  apply filter_all, Forall_fmap, Forall_forall. intros rv _.
  unfold e_col. simpl. lia.
Qed.

End Tagged.


Section Involution.
Context {V : Type} `{!Scalar V} (M : spmat V) (Hcan : canonical M).

Lemma canonical_wf : wf_csc M.
Proof. apply Hcan. Qed.

Lemma column_sorted c :
  0 ≤ c < ncols M → StronglySorted Z.lt (column M c).*1.
Proof.
  intros Hc. destruct Hcan as [_ Hall]. rewrite Forall_seqZ in Hall.
  apply Sorted_StronglySorted; [apply _|]. apply Hall. lia.
Qed.

(** Every row of the transposed matrix lists its columns in increasing
    order. *)
Lemma bucket_cols_sorted r :
  StronglySorted Z.lt (e_col <$> bucket r (entries M)).
Proof.
  unfold bucket, entries. rewrite filter_bind_list, fmap_bind_list.
  apply StronglySorted_pieces. intros c Hc.
  rewrite filter_fmap_list.
  pose proof (filter_sorted_pairs (column M c) r (column_sorted c Hc)) as Hlen.
  change (λ x, e_row (tag c x) = r) with (λ rv : Z * V, rv.1 = r).
  destruct (filter (λ rv : Z * V, rv.1 = r) (column M c)) as [|rv [|rv' l]];
    [by left|by right|simpl in Hlen; lia].
Qed.

Lemma canonical_transposed : canonical (transposed M).
Proof.
  pose proof canonical_wf as Hwf.
  split; [by apply wf_transposed|].
  apply Forall_seqZ. intros r Hr. change (ncols (transposed M)) with (nrows M) in Hr.
  unfold col_sorted. rewrite (column_transposed M Hwf) by lia.
  rewrite <- list_fmap_compose. apply StronglySorted_Sorted.
  apply bucket_cols_sorted.
Qed.

Lemma column_entries c :
  0 ≤ c < ncols M →
  filter (λ t, e_col t = c) (entries M) = tag c <$> column M c.
Proof. intros. by apply (filter_tag_eq (column M)). Qed.






End Involution.

(** ** Loops, whatever they return *)

Lemma loop_ext {St} fuel (cond1 cond2 : St → result bool) body1 body2 s :
  (∀ s, cond1 s = cond2 s) → (∀ s, body1 s = body2 s) →
  loop fuel cond1 body1 s = loop fuel cond2 body2 s.
Proof.
  intros Hc Hb. revert s. induction fuel as [|fuel IH]; intros s; [done|].
  simpl. rewrite Hc. destruct (cond2 s) as [[|]|]; simpl; [|done|done].
  rewrite Hb. destruct (body2 s); simpl; [apply IH|done].
Qed.

Lemma for_loop_ext {St} ty fuel lo cond body1 body2 (s : St) :
  (∀ k s, body1 k s = body2 k s) →
  for_loop ty fuel lo cond body1 s = for_loop ty fuel lo cond body2 s.
Proof.
  intros Hb. unfold for_loop. f_equal. apply loop_ext; [done|].
  intros [k s0]. simpl. by rewrite Hb.
Qed.

Lemma loop_partial {St} (P : St → Prop) fuel cond body s s' :
  (∀ s s', P s → body s = Ok s' → P s') →
  P s → loop fuel cond body s = Ok s' → P s'.
Proof.
  intros Hb. revert s. induction fuel as [|fuel IH]; intros s Hs; [done|].
  simpl. destruct (cond s) as [[|]|]; simpl; [|by intros [= <-]|done].
  destruct (body s) as [s1|] eqn:E; simpl; [|done].
  apply IH. by eapply Hb.
Qed.

Lemma for_loop_partial {St} (P : St → Prop) ty fuel lo cond body s s' :
  (∀ k s s', P s → body k s = Ok s' → P s') →
  P s → for_loop ty fuel lo cond body s = Ok s' → P s'.
Proof.
  intros Hb Hs. unfold for_loop.
  destruct (loop _ _ _ _) as [[k s1]|] eqn:E; simpl; [|done].
  intros [= <-].
  apply (loop_partial (λ ks, P ks.2)) in E; [done| |done].
  intros [k0 s0] [k2 s2] Hs0. simpl.
  destruct (body k0 s0) as [s3|] eqn:E3; simpl; [|done].
  intros [= <- <-]. by eapply Hb.
Qed.

(** ** Densify *)

Section Densify.
Context {V : Type} `{!Scalar V}.
Implicit Types (M : spmat V) (d : NumericMatrix V).

Lemma mat_set_dimnames d r c v d' :
  mat_set d r c v = Ok d' → nm_dimnames d' = nm_dimnames d.
Proof.
  unfold mat_set. destruct (wr _ _ _); simpl; [|done]. by intros [= <-].
Qed.

(** No densify routine attaches labels to what it returns. *)
Lemma densify_dimnames W tr M d :
  densify W tr M = Ok d → nm_dimnames d = None.
Proof.
  unfold densify.
  destruct (ld W (sp_p M) _) as [nelem|]; simpl; [|done].
  destruct (ld W (sp_p M) 1) as [c_end|]; simpl; [|done].
  destruct (for_loop _ _ _ _ _ _) as [[[d' c] ce]|] eqn:E; simpl; [|done].
  intros [= <-].
  apply (for_loop_partial (λ st, nm_dimnames st.1.1 = None)) in E; [done| |].
  - intros e [[d0 c0] ce0] [[d1 c1] ce1] Hd0. simpl in Hd0.
    unfold densify_step.
    destruct (e =? ce0); simpl.
    1: destruct (ld W (sp_p M) _); simpl; [|done].
    all: destruct (ld W (sp_i M) e); simpl; [|done].
    all: destruct (rd (sp_x M) e); simpl; [|done].
    all: destruct tr;
      (destruct (mat_set d0 _ _ _) as [d2|] eqn:E2; simpl; [|done]);
      intros [= <- <- <-]; simpl; rewrite <- Hd0;
      by eapply mat_set_dimnames.
  - by destruct tr.
Qed.

Lemma ld_narrow_wide l k :
  Forall (λ v, 0 ≤ v < 2 ^ 31) l → ld narrow l k = ld wide l k.
Proof.
  intros Hall. unfold ld, rd. destruct (zget l k) as [v|] eqn:E; [|done].
  simpl. pose proof (zget_Some_range _ _ _ E).
  unfold zget in E. rewrite decide_True in E by lia.
  apply (Forall_lookup_1 _ _ _ _ Hall) in E.
  by rewrite to_int_id, to_int64_id by lia.
Qed.

Lemma sp_p_small M :
  wf_csc M → fits_count (2 ^ 31) M → Forall (λ v, 0 ≤ v < 2 ^ 31) (sp_p M).
Proof.
  intros Hwf (_ & _ & Hn). apply Forall_lookup. intros n v Hv.
  rewrite <- zget_nat in Hv. pose proof (zget_Some_range _ _ _ Hv) as Hr.
  rewrite (zlen_sp_p M Hwf) in Hr.
  rewrite (colptr_get M Hwf) in Hv by lia. injection Hv as <-.
  pose proof (colptr_range M Hwf (Z.of_nat n)). lia.
Qed.

Lemma sp_i_small M :
  wf_csc M → fits_count (2 ^ 31) M → Forall (λ v, 0 ≤ v < 2 ^ 31) (sp_i M).
Proof.
  intros Hwf (Hr & _ & _). destruct Hwf as (_&_&_&_&_&_&_&Hall).
  eapply Forall_impl; [done|]. simpl. lia.
Qed.

(** On a matrix whose shape and entry count are below 2^31, the two widths
    densify alike. *)
Lemma densify_narrow_wide_count tr M :
  wf_csc M → fits_count (2 ^ 31) M → densify narrow tr M = densify wide tr M.
Proof.
  intros Hwf Hfits. unfold densify.
  pose proof (sp_p_small M Hwf Hfits) as Hp.
  pose proof (sp_i_small M Hwf Hfits) as Hi.
  rewrite !(ld_narrow_wide (sp_p M)) by done.
  destruct (ld wide (sp_p M) _) as [nelem|]; simpl; [|done].
  destruct (ld wide (sp_p M) 1) as [c_end|]; simpl; [|done].
  f_equal. apply for_loop_ext. intros e [[d c] ce]. unfold densify_step.
  rewrite !(ld_narrow_wide (sp_p M)), !(ld_narrow_wide (sp_i M)) by done.
  done.
Qed.

(** On a matrix that fits the narrow width, the two widths densify alike. *)
Lemma densify_narrow_wide tr M :
  wf_csc M → fits (2 ^ 31) M → densify narrow tr M = densify wide tr M.
Proof. intros. by apply densify_narrow_wide_count, fits_fits_count. Qed.

End Densify.

Section DensifyReturns.
Context {V : Type} `{!Scalar V}.
Context (W : Width) (Helt : ∀ z, 0 ≤ z < 2 ^ 31 → elt W z = z).
Context (M : spmat V) (Hwf : wf_csc M) (Hfits : fits_count (2 ^ 31) M).
Context (tr : bool).

Lemma densify_step_ok e st :
  0 ≤ e < nnz M → inv_densify M tr e st →
  ∃ st', densify_step W tr M e st = Ok st' ∧ inv_densify M tr (e + 1) st'.
Proof.
  intros He Hinv. destruct st as [[d c] c_end].
  destruct Hinv as (Hnr & Hnc & Hlen & Hdn & _ & Hc & ->).
  destruct Hfits as (Hfr & Hfc & Hfn).
  destruct (entry_at M Hwf e He) as (t & Ht & Hi & Hx & Hr).
  assert (∃ c', (if e =? colptr M (c + 1)
                 then c_end <~ ld W (sp_p M)
                                 (to_size_t (to_size_t (c + 1) + 1)) ;;
                      Ok (to_size_t (c + 1), to_size_t c_end)
                 else Ok (c, colptr M (c + 1))) = Ok (c', colptr M (c' + 1))
               ∧ 0 ≤ c' < ncols M) as (c' & Hif & Hc').
  { destruct (Z.eqb_spec e (colptr M (c + 1))) as [Heq|Hne]; [|by exists c].
    exists (c + 1).
    rewrite (to_size_t_id (c + 1)), (to_size_t_id (c + 1 + 1)) by lia.
    assert (c + 1 < ncols M) as Hlt.
    { destruct (decide (c + 1 = ncols M)) as [Hlast|]; [|lia].
      rewrite Hlast in Heq. fold (nnz M) in Heq. lia. }
    pose proof (colptr_range M Hwf (c + 1 + 1) ltac:(lia)).
    unfold ld. rewrite (rd_Ok _ _ (colptr M (c + 1 + 1)))
      by (apply colptr_get; [done|lia]).
    simpl. rewrite Helt, to_size_t_id by lia. split; [done|lia]. }
  unfold densify_step. lazy beta iota zeta. rewrite Hif. simpl.
  unfold ld. rewrite (rd_Ok _ _ _ Hi). simpl. rewrite Helt by lia.
  rewrite (rd_Ok _ _ _ Hx). simpl. rewrite to_size_t_id by lia.
  unfold mat_set. rewrite !to_int_id by lia. destruct tr.
  - rewrite wr_Ok by (rewrite Hlen, Hnr; nia). simpl.
    eexists. split; [done|]. simpl. rewrite zlen_insert.
    split_and!; try done; try lia.
  - rewrite wr_Ok by (rewrite Hlen, Hnr; nia). simpl.
    eexists. split; [done|]. simpl. rewrite zlen_insert.
    split_and!; try done; try lia.
Qed.

(** On a matrix with at least one column, a densify routine returns a
    buffer of the right shape, zero-filled when nothing is stored. *)
Lemma densify_returns_count :
  0 < ncols M →
  ∃ d, densify W tr M = Ok d ∧
       nm_nrow d = (if tr then ncols M else nrows M) ∧
       nm_ncol d = (if tr then nrows M else ncols M) ∧
       zlen (nm_data d) = nrows M * ncols M ∧
       nm_dimnames d = None ∧
       (nnz M = 0 → nm_data d = replicate (Z.to_nat (nrows M * ncols M)) zero).
Proof.
  intros Hnc.
  pose proof (nrows_nonneg M Hwf) as Hnr.
  pose proof (nnz_nonneg M Hwf) as Hnn.
  pose proof (zlen_sp_i M Hwf) as Hli.
  pose proof (colptr_range M Hwf 1 ltac:(lia)) as Hp1.
  destruct Hfits as (Hfr & Hfc & Hfn).
  unfold densify. cbv zeta.
  change (sp_Dim M).1 with (nrows M). change (sp_Dim M).2 with (ncols M).
  rewrite !(to_size_t_id (nrows M)), !(to_size_t_id (ncols M)) by lia.
  unfold ld at 1. rewrite (rd_Ok _ _ (nnz M)) by (apply colptr_get; [done|lia]).
  simpl. rewrite Helt, to_size_t_id by lia.
  unfold ld at 1. rewrite (rd_Ok _ _ (colptr M 1)) by (apply colptr_get; [done|lia]).
  simpl. rewrite Helt, to_size_t_id by lia.
  destruct (for_loop_inv (inv_densify M tr) to_size_t
              (S (length (sp_i M))) 0 (nnz M) (λ e, e <? nnz M)
              (densify_step W tr M)
              (if tr then new_matrix (ncols M) (nrows M)
               else new_matrix (nrows M) (ncols M), 0, colptr M 1))
    as ([[d c] ce] & -> & Hinv).
  { lia. }
  { unfold zlen in *. lia. }
  { intros j Hj. split; [lia|]. apply to_size_t_id. lia. }
  { lia. }
  { unfold inv_densify, new_matrix.
    destruct tr; simpl; rewrite !to_int_id by lia;
      rewrite zlen_replicate by nia;
      split_and!; try done; try lia.
    intros _. f_equal. lia. }
  { intros j s Hj. by apply densify_step_ok. }
  simpl. exists d. destruct Hinv as (? & ? & ? & ? & ? & _). done.
Qed.

End DensifyReturns.

Lemma densify_returns {V} `{!Scalar V} (W : Width)
    (Helt : ∀ z, 0 ≤ z < 2 ^ 31 → elt W z = z)
    (M : spmat V) (Hwf : wf_csc M) (Hfits : fits (2 ^ 31) M) (tr : bool) :
  0 < ncols M →
  ∃ d, densify W tr M = Ok d ∧
       nm_nrow d = (if tr then ncols M else nrows M) ∧
       nm_ncol d = (if tr then nrows M else ncols M) ∧
       zlen (nm_data d) = nrows M * ncols M ∧
       nm_dimnames d = None ∧
       (nnz M = 0 → nm_data d = replicate (Z.to_nat (nrows M * ncols M)) zero).
Proof. apply densify_returns_count; [done..|by apply fits_fits_count]. Qed.

(** ** The two widths *)

Section Widths.
Context {V : Type} `{!Scalar V}.
Implicit Types (M T : spmat V).

(** The narrow transpose returns [transposed M] when the int counter of
    its first loop has room to run one past the number of rows. *)
Lemma sp_transpose_rows M :
  wf_csc M → fits_rows (2 ^ 31) M → sp_transpose M = Ok (transposed M).
Proof.
  intros. apply (transpose_refines narrow (2 ^ 31)); try done; try lia.
  - intros. apply to_int_id. lia.
  - intros. apply to_int_id. lia.
Qed.

Lemma spamx_transpose_rows M :
  wf_csc M → fits_rows (2 ^ 63) M → spamx_transpose M = Ok (transposed M).
Proof.
  intros. apply (transpose_refines wide (2 ^ 63)); try done; try lia.
  - intros. apply to_size_t_id. lia.
  - intros. apply to_int64_id. lia.
Qed.

Lemma sp_transpose_transposed M :
  wf_csc M → fits (2 ^ 31) M → sp_transpose M = Ok (transposed M).
Proof. intros. by apply sp_transpose_rows, fits_fits_rows. Qed.

Lemma spamx_transpose_transposed M :
  wf_csc M → fits (2 ^ 63) M → spamx_transpose M = Ok (transposed M).
Proof. intros. by apply spamx_transpose_rows, fits_fits_rows. Qed.

Lemma fits_transposed B M : wf_csc M → fits B M → fits B (transposed M).
Proof.
  intros Hwf (? & ? & ?). unfold fits. rewrite (nnz_transposed M Hwf).
  change (nrows (transposed M)) with (ncols M).
  change (ncols (transposed M)) with (nrows M). done.
Qed.

Lemma fits_mono B B' M : B ≤ B' → fits B M → fits B' M.
Proof. unfold fits. lia. Qed.


Lemma swapped_shape_transposed M : wf_csc M → swapped_shape M (transposed M).
Proof.
  intros Hwf. pose proof (nrows_nonneg M Hwf).
  pose proof (wf_transposed M Hwf) as HT.
  unfold swapped_shape. rewrite (nnz_transposed M Hwf).
  split; [done|]. split; [done|]. split; [done|].
  split; [apply (zlen_sp_p _ HT)|].
  split.
  - rewrite (colptr_get _ HT) by (change (ncols (transposed M)) with (nrows M); lia).
    f_equal. apply (nnz_transposed M Hwf).
  - rewrite <- (nnz_transposed M Hwf).
    split; [apply (zlen_sp_i _ HT)|apply (zlen_sp_x _ HT)].
Qed.


End Widths.



(** ** Densify on a matrix without gaps *)

Section Scattered.
Context {V : Type} `{!Scalar V}.
Implicit Types (X : list (@entry V)) (t : @entry V).

Lemma scattered_nil r c : scattered r c (@nil (@entry V)) = zero.
Proof. done. Qed.

Lemma scattered_snoc_eq X t :
  scattered (e_row t) (e_col t) (X ++ [t]) = e_val t.
Proof.
  unfold scattered, stored_at. rewrite filter_app, filter_cons_True by done.
  rewrite filter_nil. by rewrite last_snoc.
Qed.

Lemma scattered_snoc_ne r c X t :
  ¬ (e_row t = r ∧ e_col t = c) → scattered r c (X ++ [t]) = scattered r c X.
Proof.
  intros Hne. unfold scattered, stored_at.
  rewrite filter_app, filter_cons_False by done.
  by rewrite filter_nil, app_nil_r.
Qed.

Lemma scattered_none r c X :
  (∀ v, (r, c, v) ∉ X) → scattered r c X = zero.
Proof.
  intros Hno. unfold scattered, stored_at. rewrite filter_none; [done|].
  apply Forall_forall. intros [[r' c'] v] Hin [Hr Hc].
  unfold e_row, e_col in *. simpl in *. subst. by apply (Hno v).
Qed.

End Scattered.

Lemma offset_inj (R r1 c1 r2 c2 : Z) :
  0 ≤ r1 < R → 0 ≤ r2 < R → r1 + R * c1 = r2 + R * c2 → r1 = r2 ∧ c1 = c2.
Proof.
  intros H1 H2 Heq.
  destruct (Z.lt_trichotomy c1 c2) as [Hlt|[->|Hgt]]; [nia|lia|nia].
Qed.

Lemma offset_range (R C r c : Z) :
  0 ≤ r < R → 0 ≤ c < C → 0 ≤ r + R * c < R * C.
Proof. intros. nia. Qed.

Section GapFree.
Context {V : Type} `{!Scalar V}.
Context (W : Width) (Helt : ∀ z, 0 ≤ z < 2 ^ 31 → elt W z = z).
Context (M : spmat V) (Hwf : wf_csc M) (Hfits : fits (2 ^ 31) M).
Context (Hgap : gap_free M) (tr : bool).

Lemma densify_step_exact e st :
  0 ≤ e < nnz M → inv_densify_exact M tr e st →
  ∃ st', densify_step W tr M e st = Ok st' ∧ inv_densify_exact M tr (e + 1) st'.
Proof.
  intros He Hinv. destruct st as [[d c] c_end].
  destruct Hinv as (Hnr & Hnc & Hlen & Hdn & Hc & -> & Hce & Hcells).
  destruct Hfits as (Hfr & Hfc & Hfn).
  destruct (entry_at M Hwf e He) as (t & Ht & Hi & Hx & Hr).
  assert (∃ c', (if e =? colptr M (c + 1)
                 then c_end <~ ld W (sp_p M)
                                 (to_size_t (to_size_t (c + 1) + 1)) ;;
                      Ok (to_size_t (c + 1), to_size_t c_end)
                 else Ok (c, colptr M (c + 1))) = Ok (c', colptr M (c' + 1))
               ∧ 0 ≤ c' < ncols M ∧ colptr M c' ≤ e < colptr M (c' + 1))
    as (c' & Hif & Hc' & Hcol).
  { destruct (Z.eqb_spec e (colptr M (c + 1))) as [Heq|Hne];
      [|exists c; split; [done|lia]].
    exists (c + 1).
    rewrite (to_size_t_id (c + 1)), (to_size_t_id (c + 1 + 1)) by lia.
    assert (c + 1 < ncols M) as Hlt.
    { destruct (decide (c + 1 = ncols M)) as [Hlast|]; [|lia].
      rewrite Hlast in Heq. fold (nnz M) in Heq. lia. }
    pose proof (colptr_range M Hwf (c + 1 + 1) ltac:(lia)).
    pose proof (Hgap (c + 1) ltac:(lia) ltac:(lia)).
    unfold ld. rewrite (rd_Ok _ _ (colptr M (c + 1 + 1)))
      by (apply colptr_get; [done|lia]).
    simpl. rewrite Helt, to_size_t_id by lia. split; [done|lia]. }
  assert (e_col t = c') as Hcolt.
  { destruct (entries_lookup M Hwf c' e) as (r' & v' & _ & _ & Ht'); [lia|done|].
    rewrite Ht in Ht'. by injection Ht' as ->. }
  unfold densify_step. lazy beta iota zeta. rewrite Hif. simpl.
  unfold ld. rewrite (rd_Ok _ _ _ Hi). simpl. rewrite Helt by lia.
  rewrite (rd_Ok _ _ _ Hx). simpl. rewrite to_size_t_id by lia.
  pose proof (offset_range _ _ _ _ Hr Hc') as Hoff.
  pose proof (offset_range _ _ _ _ Hc' Hr) as Hoff'.
  unfold mat_set. rewrite !to_int_id by lia. destruct tr.
  - rewrite wr_Ok by (rewrite Hlen, Hnr; lia). simpl.
    eexists. split; [done|]. simpl. rewrite zlen_insert.
    split; [done|]. split; [done|]. split; [done|]. split; [done|].
    split; [lia|]. split; [done|]. split; [lia|].
    intros r k Hrr Hk. rewrite Hnr, (ztake_succ _ _ _ Ht).
    destruct (decide (e_row t = r ∧ e_col t = k)) as [[<- <-]|Hne].
    + rewrite Hcolt, zget_insert_eq by (rewrite Hlen; lia).
      by rewrite <- Hcolt, scattered_snoc_eq.
    + rewrite zget_insert_ne; [|lia|].
      * rewrite scattered_snoc_ne by done. by apply Hcells.
      * intros Heq. apply offset_inj in Heq; [|lia|lia]. apply Hne. lia.
  - rewrite wr_Ok by (rewrite Hlen, Hnr; lia). simpl.
    eexists. split; [done|]. simpl. rewrite zlen_insert.
    split; [done|]. split; [done|]. split; [done|]. split; [done|].
    split; [lia|]. split; [done|]. split; [lia|].
    intros r k Hrr Hk. rewrite Hnr, (ztake_succ _ _ _ Ht).
    destruct (decide (e_row t = r ∧ e_col t = k)) as [[<- <-]|Hne].
    + rewrite Hcolt, zget_insert_eq by (rewrite Hlen; lia).
      by rewrite <- Hcolt, scattered_snoc_eq.
    + rewrite zget_insert_ne; [|lia|].
      * rewrite scattered_snoc_ne by done. by apply Hcells.
      * intros Heq. apply offset_inj in Heq; [|lia|lia]. apply Hne. lia.
Qed.

(** On a matrix without gaps, a densify routine returns the buffer that
    holds every stored entry in its cell and zero elsewhere. *)
Lemma densify_exact :
  0 < ncols M →
  ∃ d, densify W tr M = Ok d ∧
       nm_nrow d = (if tr then ncols M else nrows M) ∧
       nm_ncol d = (if tr then nrows M else ncols M) ∧
       zlen (nm_data d) = nrows M * ncols M ∧
       nm_dimnames d = None ∧
       ∀ r k, 0 ≤ r < nrows M → 0 ≤ k < ncols M →
         (if tr then cell d k r else cell d r k)
         = Some (scattered r k (entries M)).
Proof.
  intros Hnc.
  pose proof (nrows_nonneg M Hwf) as Hnr.
  pose proof (nnz_nonneg M Hwf) as Hnn.
  pose proof (zlen_sp_i M Hwf) as Hli.
  pose proof (colptr_range M Hwf 1 ltac:(lia)) as Hp1.
  pose proof (colptr_0 M Hwf) as Hp0.
  destruct Hfits as (Hfr & Hfc & Hfn).
  unfold densify. cbv zeta.
  change (sp_Dim M).1 with (nrows M). change (sp_Dim M).2 with (ncols M).
  rewrite !(to_size_t_id (nrows M)), !(to_size_t_id (ncols M)) by lia.
  unfold ld at 1. rewrite (rd_Ok _ _ (nnz M)) by (apply colptr_get; [done|lia]).
  simpl. rewrite Helt, to_size_t_id by lia.
  unfold ld at 1. rewrite (rd_Ok _ _ (colptr M 1)) by (apply colptr_get; [done|lia]).
  simpl. rewrite Helt, to_size_t_id by lia.
  destruct (for_loop_inv (inv_densify_exact M tr) to_size_t
              (S (length (sp_i M))) 0 (nnz M) (λ e, e <? nnz M)
              (densify_step W tr M)
              (if tr then new_matrix (ncols M) (nrows M)
               else new_matrix (nrows M) (ncols M), 0, colptr M 1))
    as ([[d c] ce] & -> & Hinv).
  { lia. }
  { unfold zlen in *. lia. }
  { intros j Hj. split; [lia|]. apply to_size_t_id. lia. }
  { lia. }
  { unfold inv_densify_exact, new_matrix.
    destruct tr; simpl; rewrite !to_int_id by lia;
      rewrite zlen_replicate by (apply Z.mul_nonneg_nonneg; lia);
      (split; [done|]); (split; [done|]); (split; [lia|]); (split; [done|]);
      (split; [lia|]); (split; [done|]);
      (split; [change (0 + 1) with 1; lia|]);
      intros r k Hr Hk; rewrite ztake_0, scattered_nil;
      apply zget_replicate; by apply offset_range. }
  { intros j s Hj. by apply densify_step_exact. }
  simpl. exists d.
  destruct Hinv as (Hdr & Hdc & Hlen & Hdn & _ & _ & _ & Hcells).
  rewrite ztake_all in Hcells by (rewrite zlen_entries; [lia|done]).
  split; [done|]. split; [done|]. split; [done|]. split; [done|].
  split; [done|].
  intros r k Hr Hk. specialize (Hcells r k Hr Hk). unfold cell.
  destruct tr; rewrite Hdr, Hdc; by rewrite decide_True by lia.
Qed.

End GapFree.

Lemma nm_eq {V} (d1 d2 : NumericMatrix V) :
  nm_nrow d1 = nm_nrow d2 → nm_ncol d1 = nm_ncol d2 →
  nm_data d1 = nm_data d2 → nm_dimnames d1 = nm_dimnames d2 → d1 = d2.
Proof. destruct d1, d2. simpl. by intros -> -> -> ->. Qed.

Section ScatteredCanonical.
Context {V : Type} `{!Scalar V} (M : spmat V) (Hcan : canonical M).

Lemma entry_in_range r c v :
  (r, c, v) ∈ entries M → 0 ≤ r < nrows M ∧ 0 ≤ c < ncols M.
Proof.
  intros Hin. pose proof (canonical_wf M Hcan) as Hwf.
  pose proof (entries_rows_range M Hwf) as Hr.
  pose proof (entries_cols_range M) as Hc.
  rewrite Forall_forall in Hr, Hc.
  split; [apply (Hr _ Hin)|apply (Hc _ Hin)].
Qed.

(** In canonical form a cell holds at most one entry. *)
Lemma stored_at_unique r c :
  (length (stored_at r c (entries M)) ≤ 1)%nat.
Proof.
  unfold stored_at. rewrite <- list_filter_filter.
  destruct (decide (0 ≤ c < ncols M)) as [Hc|Hc].
  - rewrite (column_entries M) by done. rewrite filter_fmap_list.
    rewrite length_fmap.
    apply (filter_sorted_pairs (column M c) r). by apply column_sorted.
  - rewrite (filter_none (λ t, e_col t = c)); [simpl; lia|].
    eapply Forall_impl; [apply (entries_cols_range M)|]. simpl. lia.
Qed.

Lemma scattered_entry r c v :
  (r, c, v) ∈ entries M → scattered r c (entries M) = v.
Proof.
  intros Hin. unfold scattered.
  assert ((r, c, v) ∈ stored_at r c (entries M)) as Hs
    by (by apply list_elem_of_filter).
  pose proof (stored_at_unique r c) as Hlen.
  destruct (stored_at r c (entries M)) as [|t [|t' l]];
    [by apply not_elem_of_nil in Hs| |simpl in Hlen; lia].
  apply list_elem_of_singleton in Hs as <-. done.
Qed.

Lemma scattered_cases r c :
  (∃ v, (r, c, v) ∈ entries M) ∨ (∀ v, (r, c, v) ∉ entries M).
Proof.
  destruct (stored_at r c (entries M)) as [|[[r' c'] v] l] eqn:E.
  - right. intros v Hin.
    assert ((r, c, v) ∈ stored_at r c (entries M)) as Hs
      by (by apply list_elem_of_filter).
    rewrite E in Hs. by apply not_elem_of_nil in Hs.
  - left. exists v.
    assert ((r', c', v) ∈ stored_at r c (entries M)) as Hs
      by (rewrite E; apply list_elem_of_here).
    apply list_elem_of_filter in Hs as [[Hr Hc] Hin].
    unfold e_row, e_col in *. simpl in *. by subst.
Qed.

End ScatteredCanonical.

(** A cell of the transpose holds what the mirrored cell holds. *)
Lemma scattered_transposed {V} `{!Scalar V} (M : spmat V) r c :
  canonical M →
  scattered c r (entries (transposed M)) = scattered r c (entries M).
Proof.
  intros Hcan. pose proof (canonical_wf M Hcan) as Hwf.
  destruct (scattered_cases M r c) as [[v Hin]|Hno].
  - rewrite (scattered_entry M Hcan r c v Hin).
    apply (elem_of_entries_transposed M Hwf) in Hin.
    by apply scattered_entry; [apply canonical_transposed|].
  - rewrite (scattered_none r c) by done. apply scattered_none.
    intros v Hin. apply (elem_of_entries_transposed M Hwf) in Hin.
    by apply (Hno v).
Qed.

Section Fusion.
Context {V : Type} `{!Scalar V}.
Implicit Types (M : spmat V).

(** Property X10. On a canonical matrix without gaps that has a column,
    [to_dense] returns the dense form: the value of every stored entry in
    its cell and zero in every other cell. *)
Lemma gap_free_to_dense M :
  canonical M → fits (2 ^ 31) M → 0 < ncols M → gap_free M →
  ∃ d, sp_to_dense M = Ok d ∧ spamx_to_dense M = Ok d ∧
       nm_nrow d = nrows M ∧ nm_ncol d = ncols M ∧
       (∀ r c v, (r, c, v) ∈ entries M → cell d r c = Some v) ∧
       (∀ r c, 0 ≤ r < nrows M → 0 ≤ c < ncols M →
               (∀ v, (r, c, v) ∉ entries M) → cell d r c = Some zero).
Proof.
  intros Hcan Hfits Hnc Hgap. pose proof (canonical_wf M Hcan) as Hwf.
  destruct (densify_exact narrow) with (M := M) (tr := false)
    as (d & Hd & Hnr & Hncd & _ & _ & Hcells);
    [intros; apply to_int_id; lia|done..|].
  exists d. split; [done|].
  split; [unfold spamx_to_dense; by rewrite <- densify_narrow_wide|].
  split; [done|]. split; [done|]. split.
  - intros r c v Hin. destruct (entry_in_range M Hcan r c v Hin) as [Hr Hc].
    rewrite Hcells by done. f_equal. by apply scattered_entry.
  - intros r c Hr Hc Hno. rewrite Hcells by done. f_equal.
    by apply scattered_none.
Qed.

(** Property X11. On a canonical matrix that has neither an empty row nor
    an empty column in the way, [to_dense_transposed] returns what
    [to_dense] returns on the transpose. *)
Lemma gap_free_fusion M :
  canonical M → fits (2 ^ 31) M → 0 < nrows M → 0 < ncols M →
  gap_free M → gap_free (transposed M) →
  ∃ T d, sp_transpose M = Ok T ∧ sp_to_dense T = Ok d ∧
         sp_to_dense_transposed M = Ok d.
Proof.
  intros Hcan Hfits Hnr Hnc Hgap HgapT.
  pose proof (canonical_wf M Hcan) as Hwf.
  pose proof (wf_transposed M Hwf) as HwfT.
  pose proof (fits_transposed _ M Hwf Hfits) as HfitsT.
  destruct (densify_exact narrow) with (M := transposed M) (tr := false)
    as (d1 & Hd1 & Hr1 & Hc1 & Hl1 & Hn1 & Hcells1);
    [intros; apply to_int_id; lia|done..|].
  destruct (densify_exact narrow) with (M := M) (tr := true)
    as (d2 & Hd2 & Hr2 & Hc2 & Hl2 & Hn2 & Hcells2);
    [intros; apply to_int_id; lia|done..|].
  change (nrows (transposed M)) with (ncols M) in *.
  change (ncols (transposed M)) with (nrows M) in *.
  exists (transposed M), d1.
  split; [by apply sp_transpose_transposed|]. split; [done|].
  unfold sp_to_dense_transposed. rewrite Hd2. f_equal.
  apply nm_eq; [congruence|congruence| |congruence].
  apply zget_ext; [lia|]. intros q Hq. rewrite Hl2 in Hq.
  assert (0 ≤ q `mod` ncols M < ncols M) as Hk by (apply Z.mod_pos_bound; lia).
  assert (0 ≤ q `div` ncols M < nrows M) as Hr.
  { split; [apply Z.div_pos; lia|]. apply Z.div_lt_upper_bound; lia. }
  assert (q = q `mod` ncols M + ncols M * (q `div` ncols M)) as Hqeq
    by (rewrite Z.add_comm; apply Z.div_mod; lia).
  specialize (Hcells1 _ _ Hk Hr). specialize (Hcells2 _ _ Hr Hk).
  unfold cell in Hcells1, Hcells2.
  rewrite decide_True in Hcells1 by lia. rewrite decide_True in Hcells2 by lia.
  rewrite Hr1 in Hcells1. rewrite Hr2 in Hcells2.
  rewrite <- Hqeq in Hcells1, Hcells2.
  rewrite Hcells1, Hcells2. f_equal. symmetry. by apply scattered_transposed.
Qed.

End Fusion.

(** ** Empty matrices *)

Section Empty.
Context {V : Type} `{!Scalar V}.
Implicit Types (M : spmat V).

Lemma empty_nnz M :
  wf_csc M → nrows M = 0 ∨ ncols M = 0 ∨ nnz M = 0 → nnz M = 0.
Proof.
  intros Hwf [Hr|[Hc|Hn]]; [| |done].
  - rewrite <- (zlen_sp_i M Hwf).
    destruct Hwf as (_&_&_&_&_&_&_&Hall).
    destruct (sp_i M) as [|r l]; [done|].
    apply Forall_cons in Hall as [Hr0 _]. lia.
  - unfold nnz. rewrite Hc. by apply colptr_0.
Qed.

(** Property X12. Without a column, every densify routine reads past the
    offsets: it takes the end of the first column from [p[1]] before it
    looks at the entry count, and the offsets have the one element
    [p[0]]. *)
Lemma densify_without_column W tr M :
  wf_csc M → ncols M = 0 → densify W tr M = Err OutOfBounds.
Proof.
  intros Hwf Hc. unfold densify. cbv zeta.
  change (sp_Dim M).2 with (ncols M). rewrite Hc.
  change (to_size_t 0) with 0.
  unfold ld at 1. rewrite (rd_Ok _ _ (colptr M 0)) by (apply colptr_get; [done|lia]).
  simpl. unfold ld, rd. rewrite zget_None; [done|].
  rewrite (zlen_sp_p M Hwf). lia.
Qed.

(** Property X13. What the routines do on an empty matrix: the transposes
    return an empty matrix of the exchanged shape; the densify routines return a
    zero-filled buffer when there is a column to read the end of. *)
Lemma empty_inputs M :
  wf_csc M → fits (2 ^ 31) M →
  nrows M = 0 ∨ ncols M = 0 ∨ nnz M = 0 →
  (∃ T, sp_transpose M = Ok T ∧ spamx_transpose M = Ok T ∧
        nrows T = ncols M ∧ ncols T = nrows M ∧ nnz T = 0 ∧
        sp_i T = [] ∧ sp_x T = []) ∧
  (0 < ncols M →
   ∀ tr, ∃ d, densify narrow tr M = Ok d ∧ densify wide tr M = Ok d ∧
              nm_nrow d = (if tr then ncols M else nrows M) ∧
              nm_ncol d = (if tr then nrows M else ncols M) ∧
              nm_data d = replicate (Z.to_nat (nrows M * ncols M)) zero).
Proof.
  intros Hwf Hfits Hempty. pose proof (empty_nnz M Hwf Hempty) as Hn.
  split.
  - exists (transposed M).
    destruct (swapped_shape_transposed M Hwf) as (? & ? & ? & _ & _ & Hi & Hx).
    split; [by apply sp_transpose_transposed|].
    split; [apply spamx_transpose_transposed;
            [done|by apply (fits_mono (2 ^ 31)); [lia|]]|].
    rewrite Hn in *. split; [done|]. split; [done|]. split; [done|].
    split; [by apply nil_length_inv; unfold zlen in *; lia|].
    by apply nil_length_inv; unfold zlen in *; lia.
  - intros Hnc tr.
    destruct (densify_returns narrow) with (M := M) (tr := tr)
      as (d & Hd & Hr & Hc & _ & _ & Hz);
      [intros; apply to_int_id; lia|done..|].
    exists d. split; [done|].
    split; [by rewrite <- densify_narrow_wide|]. auto.
Qed.

End Empty.

(** ** The 3 x 2 sample, evaluated *)

Example M_3x2_transpose :
  sp_transpose M_3x2
  = Ok {| sp_i := [0; 1; 0]; sp_p := [0; 1; 2; 3]; sp_x := [1; 3; 2];
          sp_Dim := (2, 3); sp_Dimnames := (Ref 2, Ref 1) |}.
Proof. by vm_compute. Qed.

Example M_3x2_to_dense :
  sp_to_dense M_3x2
  = Ok {| nm_nrow := 3; nm_ncol := 2; nm_data := [1; 0; 2; 0; 3; 0];
          nm_dimnames := None |}.
Proof. by vm_compute. Qed.

Example M_3x2_to_dense_transposed :
  sp_to_dense_transposed M_3x2
  = Ok {| nm_nrow := 2; nm_ncol := 3; nm_data := [1; 0; 0; 3; 2; 0];
          nm_dimnames := None |}.
Proof. by vm_compute. Qed.

(** * Unsorted input, bad input and the two layouts *)

(** ** Sorting by row, on any list of entries *)

Lemma StronglySorted_filter_fmap {A B} (R : relation B) (f : A → B)
    (P : A → Prop) `{!∀ x, Decision (P x)} (l : list A) :
  StronglySorted R (f <$> l) → StronglySorted R (f <$> filter P l).
Proof.
  induction l as [|a l IH]; [done|]. csimpl.
  intros [Hall Hs]%StronglySorted_cons. rewrite filter_cons.
  case_decide; [|by apply IH]. csimpl. apply StronglySorted_cons.
  split; [|by apply IH].
  rewrite Forall_fmap in Hall |- *. apply Forall_forall.
  intros x [_ Hx]%list_elem_of_filter.
  rewrite Forall_forall in Hall. by apply Hall.
Qed.

Lemma StronglySorted_le_NoDup (l : list Z) :
  StronglySorted Z.le l → NoDup l → StronglySorted Z.lt l.
Proof.
  induction l as [|a l IH]; [constructor|].
  intros [Hall Hs]%StronglySorted_cons [Hnin Hnd]%NoDup_cons.
  apply StronglySorted_cons. split; [|by apply IH].
  apply Forall_forall. intros x Hx. rewrite Forall_forall in Hall.
  specialize (Hall x Hx). assert (a ≠ x) by (by intros ->). lia.
Qed.

Section BucketPerm.
Context {V : Type}.
Implicit Types (X : list (@entry V)).

Lemma split_perm X n :
  filter (λ t, e_row t < n) X ++ bucket n X
  ≡ₚ filter (λ t, e_row t < n + 1) X.
Proof.
  unfold bucket. induction X as [|t X IH]; [done|].
  rewrite !filter_cons.
  repeat case_decide; try lia; simpl; rewrite <- ?IH; try done.
  by rewrite <- Permutation_middle.
Qed.

Lemma by_row_list_below X n :
  0 ≤ n → Forall (λ t, 0 ≤ e_row t) X →
  seqZ 0 n ≫= (λ r, bucket r X) ≡ₚ filter (λ t, e_row t < n) X.
Proof.
  intros Hn Hpos. revert n Hn. apply Z_nonneg_ind.
  - rewrite filter_none; [done|]. eapply Forall_impl; [done|]. simpl. lia.
  - intros n Hn IH. by rewrite bind_seqZ_snoc, IH, split_perm.
Qed.

(** Sorting by row permutes. *)
Lemma by_row_list_perm X n :
  0 ≤ n → Forall (λ t, 0 ≤ e_row t < n) X →
  seqZ 0 n ≫= (λ r, bucket r X) ≡ₚ X.
Proof.
  intros Hn Hall. rewrite by_row_list_below; [|done|].
  - rewrite filter_all; [done|]. eapply Forall_impl; [done|]. simpl. lia.
  - eapply Forall_impl; [done|]. simpl. lia.
Qed.

(** Sorting by row sorts. *)
Lemma by_row_list_sorted X n :
  StronglySorted Z.le (e_row <$> seqZ 0 n ≫= (λ r, bucket r X))
  ∧ Forall (λ t, e_row t < n) (seqZ 0 n ≫= (λ r, bucket r X)).
Proof.
  destruct (decide (0 ≤ n)) as [Hn|Hn];
    [|rewrite seqZ_nil by lia; split; constructor].
  revert n Hn. apply (Z_nonneg_ind (λ n, _ ∧ _)); [split; constructor|].
  intros n Hn [IHs IHb]. rewrite bind_seqZ_snoc by done.
  assert (Forall (λ t : @entry V, e_row t = n) (bucket n X)) as Hn'.
  { apply Forall_forall. by intros t [? _]%list_elem_of_filter. }
  split.
  - rewrite fmap_app. apply StronglySorted_app_2; [|done|].
    + intros x1 x2 (t1 & -> & H1)%list_elem_of_fmap (t2 & -> & H2)%list_elem_of_fmap.
      rewrite Forall_forall in IHb, Hn'. specialize (IHb _ H1).
      specialize (Hn' _ H2). lia.
    + induction (bucket n X) as [|t l IHl]; [constructor|].
      apply Forall_cons in Hn' as [Ht Hl]. csimpl.
      apply StronglySorted_cons. split; [|by apply IHl].
      apply Forall_fmap. eapply Forall_impl; [done|]. simpl. lia.
  - apply Forall_app. split.
    + eapply Forall_impl; [done|]. simpl. lia.
    + eapply Forall_impl; [done|]. simpl. lia.
Qed.

End BucketPerm.

(** ** The transpose of a matrix that need not be sorted *)

Section Unsorted.
Context {V : Type} `{!Scalar V} (M : spmat V) (Hwf : wf_csc M).

Lemma by_row_perm : by_row M ≡ₚ entries M.
Proof.
  apply by_row_list_perm; [by apply nrows_nonneg|].
  by apply entries_rows_range.
Qed.

(** The stored entries lie in the order of their columns. *)
Lemma entries_cols_sorted : StronglySorted Z.le (e_col <$> entries M).
Proof.
  pose proof (ncols_nonneg M Hwf) as Hnc. unfold entries.
  cut (StronglySorted Z.le (e_col <$> seqZ 0 (ncols M) ≫= (λ c, tag c <$> column M c))
       ∧ Forall (λ t, e_col t < ncols M)
           (seqZ 0 (ncols M) ≫= (λ c, tag c <$> column M c))); [by intros [? _]|].
  generalize (ncols M) Hnc. apply (Z_nonneg_ind (λ n, _ ∧ _)); [split; constructor|].
  intros n Hn [IHs IHb]. rewrite bind_seqZ_snoc by done.
  assert (Forall (λ t : @entry V, e_col t = n) (tag n <$> column M n)) as Hn'.
  { apply Forall_fmap, Forall_forall. by intros rv _. }
  split.
  - rewrite fmap_app. apply StronglySorted_app_2; [|done|].
    + intros x1 x2 (t1 & -> & H1)%list_elem_of_fmap (t2 & -> & H2)%list_elem_of_fmap.
      rewrite Forall_forall in IHb, Hn'. specialize (IHb _ H1).
      specialize (Hn' _ H2). lia.
    + induction (tag n <$> column M n) as [|t l IHl]; [constructor|].
      apply Forall_cons in Hn' as [Ht Hl]. csimpl.
      apply StronglySorted_cons. split; [|by apply IHl].
      apply Forall_fmap. eapply Forall_impl; [done|]. simpl. lia.
  - apply Forall_app. split.
    + eapply Forall_impl; [done|]. simpl. lia.
    + eapply Forall_impl; [done|]. simpl. lia.
Qed.

(** Every column of the transpose lists its rows in non-decreasing order. *)
Lemma transposed_cols_sorted r :
  0 ≤ r < nrows M → StronglySorted Z.le (column (transposed M) r).*1.
Proof.
  intros Hr. rewrite (column_transposed M Hwf) by done.
  rewrite <- list_fmap_compose.
  apply (StronglySorted_filter_fmap Z.le e_col). apply entries_cols_sorted.
Qed.

Lemma entries_transposed_perm :
  entries (transposed M) ≡ₚ flip <$> entries M.
Proof. rewrite (entries_transposed M Hwf). by rewrite by_row_perm. Qed.

Lemma values_transposed_perm : sp_x (transposed M) ≡ₚ sp_x M.
Proof.
  change (sp_x (transposed M)) with (e_val <$> by_row M).
  rewrite by_row_perm. by rewrite (entries_vals M Hwf).
Qed.

(** How many entries lie in the columns before column [c]. *)
Lemma entries_before_column c :
  0 ≤ c ≤ ncols M →
  zlen (filter (λ t, e_col t < c) (entries M)) = colptr M c.
Proof.
  intros Hc. unfold entries. rewrite (filter_tag_lt (column M)) by done.
  by apply (plen_columns M Hwf).
Qed.

Lemma offsets_twice : sp_p (transposed (transposed M)) = sp_p M.
Proof.
  pose proof (ncols_nonneg M Hwf) as Hnc.
  change (sp_p (transposed (transposed M)))
    with (row_start (transposed M) <$> seqZ 0 (ncols M + 1)).
  symmetry. apply zget_ext.
  - rewrite zlen_fmap, zlen_seqZ by lia. by apply zlen_sp_p.
  - intros k Hk. rewrite (zlen_sp_p M Hwf) in Hk.
    rewrite zget_fmap, zget_seqZ by lia. simpl. rewrite Z.add_0_l.
    rewrite (colptr_get M Hwf) by lia. f_equal.
    unfold row_start, rbelow. rewrite (entries_transposed M Hwf).
    rewrite filter_fmap_list, zlen_fmap.
    change (λ x, e_row (flip x) < k) with (λ t : @entry V, e_col t < k).
    rewrite <- entries_before_column by lia.
    unfold zlen. f_equal. apply Permutation_length.
    by rewrite by_row_perm.
Qed.

(** A column of the twice transposed matrix is the column of the input
    sorted by row. *)
Lemma column_twice c :
  0 ≤ c < ncols M →
  column (transposed (transposed M)) c = sort_rows (nrows M) (column M c).
Proof.
  intros Hc. pose proof (wf_transposed M Hwf) as HT.
  rewrite (column_transposed _ HT) by done.
  rewrite (entries_transposed M Hwf). unfold bucket.
  rewrite filter_fmap_list, <- list_fmap_compose.
  change (λ x, e_row (flip x) = c) with (λ t : @entry V, e_col t = c).
  unfold by_row. rewrite filter_bind_list.
  erewrite (list_bind_ext _ (λ r, bucket r (filter (λ t, e_col t = c) (entries M))));
    [| |done].
  2:{ intros r. unfold bucket. rewrite !list_filter_filter.
      apply list_filter_iff. tauto. }
  rewrite column_entries by done. rewrite fmap_bind_list.
  unfold sort_rows. apply list_bind_ext; [|done]. intros r.
  unfold bucket. rewrite filter_fmap_list, <- list_fmap_compose.
  erewrite list_fmap_ext; [apply list_fmap_id|]. by intros i [r' v] _.
Qed.

End Unsorted.

Lemma sort_rows_perm {V} (n : Z) (col : list (Z * V)) :
  0 ≤ n → Forall (λ rv, 0 ≤ rv.1 < n) col → sort_rows n col ≡ₚ col.
Proof.
  intros Hn Hall.
  assert (sort_rows n col
          = (λ t, (e_row t, e_val t)) <$>
              (seqZ 0 n ≫= (λ r, bucket r (tag 0 <$> col)))) as ->.
  { rewrite fmap_bind_list. unfold sort_rows. apply list_bind_ext; [|done].
    intros r. unfold bucket. rewrite filter_fmap_list, <- list_fmap_compose.
    erewrite list_fmap_ext; [symmetry; apply list_fmap_id|]. by intros i [r' v] _. }
  rewrite by_row_list_perm; [|done|by apply Forall_fmap].
  rewrite <- list_fmap_compose.
  erewrite list_fmap_ext; [by rewrite list_fmap_id|]. by intros i [r' v] _.
Qed.

(** Where a loop that ran to its end has been: every iteration returned,
    from a state that satisfies what the body preserves. *)
Lemma for_loop_visits {St} (P : St → Prop) ty fuel lo hi cond body
    (s s' : St) j :
  (∀ k, lo ≤ k < hi → cond k = true ∧ ty (k + 1) = k + 1) →
  (∀ k s s', P s → body k s = Ok s' → P s') →
  P s → lo ≤ j < hi →
  for_loop ty fuel lo cond body s = Ok s' →
  ∃ sj sj', P sj ∧ body j sj = Ok sj'.
Proof.
  intros Hcond Hb Hs Hj. unfold for_loop.
  destruct (loop _ _ _ _) as [ks|] eqn:E; simpl; [|done]. intros _.
  remember (Z.to_nat (j - lo)) as n eqn:Hn.
  revert lo s fuel Hcond Hs Hj Hn E.
  induction n as [|n IH]; intros lo s fuel Hcond Hs Hj Hn E.
  - assert (lo = j) as -> by lia.
    destruct fuel as [|fuel]; [done|]. simpl in E.
    destruct (Hcond j) as [Hc _]; [lia|]. rewrite Hc in E. simpl in E.
    destruct (body j s) as [s1|] eqn:E1; [|done]. eauto.
  - destruct fuel as [|fuel]; [done|]. simpl in E.
    destruct (Hcond lo) as [Hc Hty]; [lia|]. rewrite Hc in E. simpl in E.
    destruct (body lo s) as [s1|] eqn:E1; simpl in E; [|done].
    rewrite Hty in E.
    apply (IH (lo + 1) s1 fuel); [|by eapply Hb|lia|lia|done].
    intros k ?. apply Hcond. lia.
Qed.

(** ** A row index out of range *)

Section BadRow.
Context {V : Type} `{!Scalar V}.
Context (W : Width) (B : Z) (HB : B ≤ 2 ^ 64).
Context (Hcnt : ∀ z, 0 ≤ z < B → cnt W z = z).
Context (Helt : ∀ z, 0 ≤ z < B → elt W z = z).
Context (M : spmat V) (e r : Z).
Context (Hnr : 0 ≤ nrows M) (Hnc : 0 ≤ ncols M) (Hfits : fits B M).
Context (He : 0 ≤ e < nnz M) (Hr : zget (sp_i M) e = Some r).
Context (Hcount : r ≠ -1 → ¬ 0 ≤ elt W (elt W r + 1) < nrows M + 1).
Context (Hscatter : r = -1 → ¬ 0 ≤ cnt W (elt W r) < nrows M + 1).

Lemma scatter_step_zlen j st st' :
  scatter_step W M j st = Ok st' → zlen st'.1.1.1 = zlen st.1.1.1.
Proof.
  destruct st as [[[p ti] tx] cid]. unfold scatter_step.
  destruct (ld W (sp_i M) j) as [rid|]; simpl; [|done].
  destruct (rd (sp_x M) j) as [val|]; simpl; [|done].
  destruct (skip_columns W M j cid) as [cid'|]; simpl; [|done].
  destruct (rd p _) as [pos|]; simpl; [|done].
  destruct (wr tx _ _) as [tx'|]; simpl; [|done].
  destruct (wr ti _ _) as [ti'|]; simpl; [|done].
  unfold wr. case_decide; simpl; [|done].
  intros [= <-]. simpl. apply zlen_insert.
Qed.

Lemma wr_zlen {A} (l l' : list A) k a : wr l k a = Ok l' → zlen l' = zlen l.
Proof. unfold wr. case_decide; [|done]. intros [= <-]. apply zlen_insert. Qed.

Lemma transpose_bad_row T : transpose W M ≠ Ok T.
Proof.
  destruct Hfits as (Hfr & Hfc & Hfn).
  assert (is_Some (zget (sp_p M) (ncols M))) as [n Hn].
  { unfold nnz, colptr in He. destruct (zget (sp_p M) (ncols M)); [done|].
    simpl in He. lia. }
  assert (nnz M = n) as Hnn by (unfold nnz, colptr; by rewrite Hn).
  unfold transpose. cbv zeta.
  change (sp_Dim M).1 with (nrows M). change (sp_Dim M).2 with (ncols M).
  rewrite !(Hcnt (nrows M)), !(Hcnt (ncols M)) by lia.
  unfold ld at 1. rewrite (rd_Ok _ _ _ Hn). simpl.
  rewrite Helt, Hcnt by lia. rewrite <- Hnn.
  destruct (for_loop _ _ _ _ clear_step _) as [p0|] eqn:E0; simpl; [|done].
  apply (for_loop_partial (λ p, zlen p = nrows M + 1)) in E0;
    [|intros k s s' Hs; unfold clear_step; intros ->%wr_zlen; done
     |unfold new_spmat; simpl; apply zlen_replicate; lia].
  destruct (for_loop _ _ _ _ (count_step W M) _) as [p1|] eqn:E1; simpl; [|done].
  destruct (decide (r = -1)) as [Heq|Hne].
  - pose proof E1 as E1'.
    apply (for_loop_partial (λ p, zlen p = nrows M + 1)) in E1'; [| |done].
    2:{ intros k s s' Hs. unfold count_step.
        destruct (ld W (sp_i M) k) as [rid|]; simpl; [|done].
        destruct (rd s _) as [c|]; simpl; [|done].
        by intros ->%wr_zlen. }
    destruct (for_loop _ _ _ _ (sum_step W) _) as [p2|] eqn:E2; simpl; [|done].
    apply (for_loop_partial (λ p, zlen p = nrows M + 1)) in E2; [| |done].
    2:{ intros k s s' Hs. unfold sum_step.
        destruct (rd s k) as [a|]; simpl; [|done].
        destruct (rd s _) as [b|]; simpl; [|done].
        by intros ->%wr_zlen. }
    destruct (for_loop _ _ _ _ (scatter_step W M) _) as [st3|] eqn:E3;
      simpl; [|done].
    apply (for_loop_visits (λ st, zlen st.1.1.1 = nrows M + 1) _ _ _
             (nnz M) _ _ _ _ e) in E3; [| | |done|lia].
    + destruct E3 as ([[[p ti] tx] cid] & st' & Hp & Hstep). simpl in Hp.
      unfold scatter_step in Hstep. unfold ld in Hstep.
      rewrite (rd_Ok _ _ _ Hr) in Hstep. simpl in Hstep.
      destruct (rd (sp_x M) e) as [val|]; simpl in Hstep; [|done].
      destruct (skip_columns W M e cid) as [cid'|]; simpl in Hstep; [|done].
      unfold rd at 1 in Hstep.
      destruct (zget p (cnt W (elt W r))) as [pos|] eqn:Epos; [|done].
      apply zget_Some_range in Epos. rewrite Hp in Epos.
      exfalso. by apply Hscatter.
    + intros k Hk. rewrite to_size_t_id by lia. split; [lia|].
      apply to_size_t_id. lia.
    + intros k s s' Hs Hstep. apply scatter_step_zlen in Hstep. congruence.
  - apply (for_loop_visits (λ p, zlen p = nrows M + 1) _ _ _
             (nnz M) _ _ _ _ e) in E1; [| | |done|lia].
    + destruct E1 as (p & p' & Hp & Hstep).
      unfold count_step, ld in Hstep.
      rewrite (rd_Ok _ _ _ Hr) in Hstep. simpl in Hstep.
      unfold rd in Hstep.
      destruct (zget p (elt W (elt W r + 1))) as [c|] eqn:Ec; [|done].
      apply zget_Some_range in Ec. rewrite Hp in Ec.
      exfalso. by apply Hcount.
    + intros k Hk. split; [lia|]. apply Hcnt. lia.
    + intros k s s' Hs. unfold count_step.
      destruct (ld W (sp_i M) k) as [rid|]; simpl; [|done].
      destruct (rd s _) as [c|]; simpl; [|done].
      by intros ->%wr_zlen.
Qed.

End BadRow.

(** ** Densify on any well-formed matrix *)

Section DensifyRows.
Context {V : Type} `{!Scalar V}.
Context (W : Width) (Helt : ∀ z, 0 ≤ z < 2 ^ 31 → elt W z = z).
Context (M : spmat V) (Hwf : wf_csc M) (Hfits : fits (2 ^ 31) M).
Context (tr : bool).

(** Every offset lies in a column. *)
Lemma column_of e :
  0 ≤ e < nnz M → ∃ c, 0 ≤ c < ncols M ∧ colptr M c ≤ e < colptr M (c + 1).
Proof.
  intros He. pose proof (ncols_nonneg M Hwf) as Hnc.
  destruct (tiling_cover (λ c, tag c <$> column M c) (ncols M) e)
    as (c & k & Hc & Hk & Heq); [done|..].
  { rewrite (plen_columns M Hwf) by lia. done. }
  rewrite zlen_fmap, (zlen_column M Hwf) in Hk by done.
  rewrite (plen_columns M Hwf) in Heq by lia.
  exists c. lia.
Qed.

Lemma densify_step_rows e st :
  0 ≤ e < nnz M → inv_densify_rows M tr e st →
  ∃ st', densify_step W tr M e st = Ok st' ∧ inv_densify_rows M tr (e + 1) st'.
Proof.
  intros He Hinv. destruct st as [[d c] c_end].
  destruct Hinv as (Hnr & Hnc & Hlen & Hc & -> & Hce & Hcells).
  destruct Hfits as (Hfr & Hfc & Hfn).
  destruct (entry_at M Hwf e He) as (t & Ht & Hi & Hx & Hr).
  assert (∃ c', (if e =? colptr M (c + 1)
                 then c_end <~ ld W (sp_p M)
                                 (to_size_t (to_size_t (c + 1) + 1)) ;;
                      Ok (to_size_t (c + 1), to_size_t c_end)
                 else Ok (c, colptr M (c + 1))) = Ok (c', colptr M (c' + 1))
               ∧ 0 ≤ c' < ncols M ∧ colptr M c' ≤ e)
    as (c' & Hif & Hc' & Hcol).
  { destruct (Z.eqb_spec e (colptr M (c + 1))) as [Heq|Hne];
      [|exists c; split; [done|lia]].
    exists (c + 1).
    rewrite (to_size_t_id (c + 1)), (to_size_t_id (c + 1 + 1)) by lia.
    assert (c + 1 < ncols M) as Hlt.
    { destruct (decide (c + 1 = ncols M)) as [Hlast|]; [|lia].
      rewrite Hlast in Heq. fold (nnz M) in Heq. lia. }
    pose proof (colptr_range M Hwf (c + 1 + 1) ltac:(lia)).
    unfold ld. rewrite (rd_Ok _ _ (colptr M (c + 1 + 1)))
      by (apply colptr_get; [done|lia]).
    simpl. rewrite Helt, to_size_t_id by lia. split; [done|lia]. }
  assert (∃ c'', (e_row t, c'', e_val t) ∈ entries M ∧ c' ≤ c'')
    as (c'' & Hin & Hle).
  { destruct (column_of e He) as (c'' & Hc'' & Hcol'').
    destruct (entries_lookup M Hwf c'' e) as (r' & v' & Hi' & Hx' & Ht');
      [done..|].
    exists c''. rewrite Hi in Hi'. rewrite Hx in Hx'.
    injection Hi' as ->. injection Hx' as ->. split.
    - unfold zget in Ht'. case_decide; [|done].
      by eapply list_elem_of_lookup_2.
    - destruct (decide (c' ≤ c'')) as [|Hgt]; [done|].
      pose proof (colptr_mono M Hwf (c'' + 1) c' ltac:(lia) ltac:(lia)
                    ltac:(lia)). lia. }
  unfold densify_step. lazy beta iota zeta. rewrite Hif. simpl.
  unfold ld. rewrite (rd_Ok _ _ _ Hi). simpl. rewrite Helt by lia.
  rewrite (rd_Ok _ _ _ Hx). simpl. rewrite to_size_t_id by lia.
  pose proof (offset_range _ _ _ _ Hr Hc') as Hoff.
  pose proof (offset_range _ _ _ _ Hc' Hr) as Hoff'.
  unfold mat_set. rewrite !to_int_id by lia. destruct tr.
  - rewrite wr_Ok by (rewrite Hlen, Hnr; lia). simpl.
    eexists. split; [done|]. simpl. rewrite zlen_insert.
    split; [done|]. split; [done|]. split; [done|].
    split; [done|]. split; [done|]. split; [lia|].
    intros r k Hrr Hk. rewrite Hnr.
    destruct (decide (e_row t = r ∧ c' = k)) as [[<- <-]|Hne].
    + rewrite zget_insert_eq by (rewrite Hlen; lia).
      exists (e_val t). split; [done|]. right. by exists c''.
    + rewrite zget_insert_ne; [by apply Hcells|lia|].
      intros Heq. apply offset_inj in Heq; [|lia|lia]. apply Hne. lia.
  - rewrite wr_Ok by (rewrite Hlen, Hnr; lia). simpl.
    eexists. split; [done|]. simpl. rewrite zlen_insert.
    split; [done|]. split; [done|]. split; [done|].
    split; [done|]. split; [done|]. split; [lia|].
    intros r k Hrr Hk. rewrite Hnr.
    destruct (decide (e_row t = r ∧ c' = k)) as [[<- <-]|Hne].
    + rewrite zget_insert_eq by (rewrite Hlen; lia).
      exists (e_val t). split; [done|]. right. by exists c''.
    + rewrite zget_insert_ne; [by apply Hcells|lia|].
      intros Heq. apply offset_inj in Heq; [|lia|lia]. apply Hne. lia.
Qed.

(** On a well-formed matrix with a column, gaps or not, a densify routine
    returns, and every cell of what it returns is zero or holds the value
    of an entry of its row, stored in its column or in a later one. *)
Lemma densify_rows :
  0 < ncols M →
  ∃ d, densify W tr M = Ok d ∧
       nm_nrow d = (if tr then ncols M else nrows M) ∧
       nm_ncol d = (if tr then nrows M else ncols M) ∧
       ∀ r k, 0 ≤ r < nrows M → 0 ≤ k < ncols M →
         ∃ v, (if tr then cell d k r else cell d r k) = Some v ∧
              (v = zero ∨ ∃ c, (r, c, v) ∈ entries M ∧ k ≤ c).
Proof.
  intros Hnc.
  pose proof (nrows_nonneg M Hwf) as Hnr.
  pose proof (nnz_nonneg M Hwf) as Hnn.
  pose proof (zlen_sp_i M Hwf) as Hli.
  pose proof (colptr_range M Hwf 1 ltac:(lia)) as Hp1.
  pose proof (colptr_0 M Hwf) as Hp0.
  destruct Hfits as (Hfr & Hfc & Hfn).
  unfold densify. cbv zeta.
  change (sp_Dim M).1 with (nrows M). change (sp_Dim M).2 with (ncols M).
  rewrite !(to_size_t_id (nrows M)), !(to_size_t_id (ncols M)) by lia.
  unfold ld at 1. rewrite (rd_Ok _ _ (nnz M)) by (apply colptr_get; [done|lia]).
  simpl. rewrite Helt, to_size_t_id by lia.
  unfold ld at 1. rewrite (rd_Ok _ _ (colptr M 1)) by (apply colptr_get; [done|lia]).
  simpl. rewrite Helt, to_size_t_id by lia.
  destruct (for_loop_inv (inv_densify_rows M tr) to_size_t
              (S (length (sp_i M))) 0 (nnz M) (λ e, e <? nnz M)
              (densify_step W tr M)
              (if tr then new_matrix (ncols M) (nrows M)
               else new_matrix (nrows M) (ncols M), 0, colptr M 1))
    as ([[d c] ce] & -> & Hinv).
  { lia. }
  { unfold zlen in *. lia. }
  { intros j Hj. split; [lia|]. apply to_size_t_id. lia. }
  { lia. }
  { unfold inv_densify_rows, new_matrix.
    destruct tr; simpl; rewrite !to_int_id by lia;
      rewrite zlen_replicate by (apply Z.mul_nonneg_nonneg; lia);
      (split; [done|]); (split; [done|]); (split; [lia|]);
      (split; [lia|]); (split; [done|]); (split; [lia|]);
      intros r k Hr Hk; exists zero;
      (split; [apply zget_replicate; by apply offset_range|by left]). }
  { intros j s Hj. by apply densify_step_rows. }
  simpl. exists d.
  destruct Hinv as (Hdr & Hdc & Hlen & _ & _ & _ & Hcells).
  split; [done|]. split; [done|]. split; [done|].
  intros r k Hr Hk. destruct (Hcells r k Hr Hk) as (v & Hv & Hor).
  exists v. split; [|done]. unfold cell. rewrite Hdr, Hdc.
  destruct tr; (rewrite decide_True by lia); done.
Qed.

End DensifyRows.

(** ** The two layouts side by side *)

(** The rule for two counted loops over the same range, run in step. *)
Lemma for_loop_inv2 {S1 S2} (I : Z → S1 → S2 → Prop) ty fuel lo hi cond
    body1 body2 (s1 : S1) (s2 : S2) :
  lo ≤ hi →
  (Z.to_nat (hi - lo) < fuel)%nat →
  (∀ k, lo ≤ k < hi → cond k = true ∧ ty (k + 1) = k + 1) →
  cond hi = false →
  I lo s1 s2 →
  (∀ k s1 s2, lo ≤ k < hi → I k s1 s2 →
     ∃ s1' s2', body1 k s1 = Ok s1' ∧ body2 k s2 = Ok s2' ∧ I (k + 1) s1' s2') →
  ∃ s1' s2', for_loop ty fuel lo cond body1 s1 = Ok s1' ∧
             for_loop ty fuel lo cond body2 s2 = Ok s2' ∧ I hi s1' s2'.
Proof.
  intros Hle Hfuel Hcond Hexit Hinit Hstep.
  unfold for_loop.
  remember (Z.to_nat (hi - lo)) as n eqn:Hn.
  revert lo s1 s2 fuel Hle Hfuel Hcond Hinit Hstep Hn.
  induction n as [|n IH]; intros lo s1 s2 fuel Hle Hfuel Hcond Hinit Hstep Hn.
  - assert (lo = hi) as -> by lia.
    destruct fuel as [|fuel]; [lia|]. simpl. rewrite Hexit. simpl. eauto.
  - destruct fuel as [|fuel]; [lia|]. simpl.
    destruct (Hcond lo) as [-> Hty]; [lia|].
    destruct (Hstep lo s1 s2) as (s1' & s2' & -> & -> & Hs'); [lia|done|].
    simpl. rewrite Hty.
    apply (IH (lo + 1) s1' s2' fuel); [lia|lia| |done| |lia].
    + intros k ?. apply Hcond. lia.
    + intros k t1 t2 ? ?. apply Hstep; [lia|done].
Qed.

Section DensifyPair.
Context {V : Type} `{!Scalar V}.
Context (W : Width) (Helt : ∀ z, 0 ≤ z < 2 ^ 31 → elt W z = z).
Context (M : spmat V) (Hwf : wf_csc M) (Hfits : fits (2 ^ 31) M).

Lemma densify_step_pair e st1 st2 :
  0 ≤ e < nnz M → inv_densify_pair M e st1 st2 →
  ∃ st1' st2', densify_step W false M e st1 = Ok st1' ∧
               densify_step W true M e st2 = Ok st2' ∧
               inv_densify_pair M (e + 1) st1' st2'.
Proof.
  intros He (Hinv1 & Hinv2 & Hcc & Hcells).
  destruct (densify_step_ok W Helt M Hwf (fits_fits_count _ _ Hfits)
              false e st1 He Hinv1) as (st1' & Hs1 & Hinv1').
  destruct (densify_step_ok W Helt M Hwf (fits_fits_count _ _ Hfits)
              true e st2 He Hinv2) as (st2' & Hs2 & Hinv2').
  exists st1', st2'. split; [done|]. split; [done|].
  split; [done|]. split; [done|].
  destruct st1 as [[d1 c1] ce1], st2 as [[d2 c2] ce2]. simpl in Hcc, Hcells.
  subst c2.
  destruct Hinv1 as (Hnr1 & Hnc1 & Hlen1 & _ & _ & Hc & ->).
  destruct Hinv2 as (Hnr2 & Hnc2 & Hlen2 & _ & _ & _ & ->).
  destruct st1' as [[d1' c1'] ce1'], st2' as [[d2' c2'] ce2'].
  destruct Hinv1' as (_ & _ & _ & _ & _ & Hc1' & _).
  destruct Hfits as (Hfr & Hfc & Hfn).
  destruct (entry_at M Hwf e He) as (t & Ht & Hi & Hx & Hr).
  unfold densify_step in Hs1, Hs2. lazy beta iota zeta in Hs1, Hs2.
  destruct (if e =? colptr M (c1 + 1) then _ else _) as [[c' ce']|];
    simpl in Hs1, Hs2; [|done].
  unfold ld in Hs1, Hs2. rewrite (rd_Ok _ _ _ Hi) in Hs1, Hs2.
  simpl in Hs1, Hs2. rewrite Helt in Hs1, Hs2 by lia.
  rewrite (rd_Ok _ _ _ Hx) in Hs1, Hs2. simpl in Hs1, Hs2.
  rewrite to_size_t_id in Hs1, Hs2 by lia.
  unfold mat_set in Hs1, Hs2.
  destruct (wr (nm_data d1) _ _) as [data1|] eqn:E1; simpl in Hs1; [|done].
  destruct (wr (nm_data d2) _ _) as [data2|] eqn:E2; simpl in Hs2; [|done].
  injection Hs1 as <- <- <-. injection Hs2 as <- <- <-. simpl.
  rewrite !to_int_id in E1, E2 by lia.
  unfold wr in E1, E2. repeat case_decide; try done.
  injection E1 as <-. injection E2 as <-.
  split; [done|]. rewrite Hnr1 in *. rewrite Hnr2 in *.
  intros r k Hrr Hk.
  destruct (decide (e_row t = r ∧ c' = k)) as [[<- <-]|Hne].
  - by rewrite !zget_insert_eq.
  - rewrite !zget_insert_ne; [by apply Hcells|lia| |lia|].
    + intros Heq. apply offset_inj in Heq; [|lia|lia]. apply Hne. lia.
    + intros Heq. apply offset_inj in Heq; [|lia|lia]. apply Hne. lia.
Qed.

(** On a well-formed matrix with a column, gaps or not,
    [to_dense_transposed] returns the transpose of what [to_dense]
    returns. *)
Lemma densify_pair :
  0 < ncols M →
  ∃ d dt, densify W false M = Ok d ∧ densify W true M = Ok dt ∧
          dense_transposed d dt.
Proof.
  intros Hnc.
  pose proof (nrows_nonneg M Hwf) as Hnr.
  pose proof (nnz_nonneg M Hwf) as Hnn.
  pose proof (zlen_sp_i M Hwf) as Hli.
  pose proof (colptr_range M Hwf 1 ltac:(lia)) as Hp1.
  destruct Hfits as (Hfr & Hfc & Hfn).
  unfold densify. cbv zeta.
  change (sp_Dim M).1 with (nrows M). change (sp_Dim M).2 with (ncols M).
  rewrite !(to_size_t_id (nrows M)), !(to_size_t_id (ncols M)) by lia.
  unfold ld. rewrite (rd_Ok _ _ (nnz M)) by (apply colptr_get; [done|lia]).
  simpl. rewrite Helt, to_size_t_id by lia.
  rewrite (rd_Ok _ _ (colptr M 1)) by (apply colptr_get; [done|lia]).
  simpl. rewrite Helt, to_size_t_id by lia.
  destruct (for_loop_inv2 (inv_densify_pair M) to_size_t
              (S (length (sp_i M))) 0 (nnz M) (λ e, e <? nnz M)
              (densify_step W false M) (densify_step W true M)
              (new_matrix (nrows M) (ncols M), 0, colptr M 1)
              (new_matrix (ncols M) (nrows M), 0, colptr M 1))
    as ([[d c] ce] & [[dt ct] cet] & -> & -> & Hinv).
  { lia. }
  { unfold zlen in *. lia. }
  { intros j Hj. split; [lia|]. apply to_size_t_id. lia. }
  { lia. }
  { unfold inv_densify_pair, inv_densify, new_matrix. simpl.
    rewrite !to_int_id by lia.
    rewrite !zlen_replicate by (apply Z.mul_nonneg_nonneg; lia).
    split; [split_and!; try done; try lia|].
    split; [split_and!; try done; try lia; intros _; f_equal; lia|].
    split; [done|]. intros r k Hr Hk.
    rewrite !zget_replicate; [done|..].
    - pose proof (offset_range (ncols M) (nrows M) k r). lia.
    - pose proof (offset_range (nrows M) (ncols M) r k). lia. }
  { intros j s1 s2 Hj. by apply densify_step_pair. }
  simpl. exists d, dt. split; [done|]. split; [done|].
  destruct Hinv as (Hinv1 & Hinv2 & _ & Hcells). simpl in Hcells.
  destruct Hinv1 as (Hr1 & Hc1 & _). destruct Hinv2 as (Hr2 & Hc2 & _).
  split; [congruence|]. split; [congruence|].
  intros r k. unfold cell. rewrite Hr1, Hc1, Hr2, Hc2.
  destruct (decide (0 ≤ r < nrows M ∧ 0 ≤ k < ncols M)) as [[Hr Hk]|Hout].
  - rewrite !decide_True by tauto. symmetry. by apply Hcells.
  - rewrite !decide_False by tauto. done.
Qed.

End DensifyPair.

(** ** Transposing twice *)

Section Twice.
Context {V : Type} `{!Scalar V} (M : spmat V) (Hwf : wf_csc M).

Lemma column_rows_range c :
  0 ≤ c < ncols M → Forall (λ rv, 0 ≤ rv.1 < nrows M) (column M c).
Proof.
  intros Hc. pose proof (entries_rows_range M Hwf) as Hall.
  apply Forall_forall. intros [r v] Hin. simpl.
  rewrite Forall_forall in Hall. apply (Hall (tag c (r, v))).
  assert (tag c (r, v) ∈ filter (λ t, e_col t = c) (entries M)) as Hf.
  { rewrite column_entries by done. by apply list_elem_of_fmap_2. }
  by apply list_elem_of_filter in Hf as [_ ?].
Qed.

Lemma rows_sorted_twice : rows_sorted M (transposed (transposed M)).
Proof.
  pose proof (wf_transposed M Hwf) as HT.
  split; [by destruct M as [? ? ? [? ?] ?]|].
  split; [by destruct M as [? ? ? ? [? ?]]|].
  split; [by apply offsets_twice|].
  intros c Hc. rewrite column_twice by done.
  split; [done|]. split.
  - apply sort_rows_perm; [by apply nrows_nonneg|by apply column_rows_range].
  - rewrite <- column_twice by done. apply StronglySorted_Sorted.
    by apply (transposed_cols_sorted (transposed M) HT).
Qed.

Lemma canonical_twice :
  no_duplicates M → canonical (transposed (transposed M)).
Proof.
  intros Hnd. pose proof (wf_transposed M Hwf) as HT.
  split; [by apply wf_transposed|].
  change (ncols (transposed (transposed M))) with (ncols M).
  apply Forall_seqZ. intros c Hc. unfold col_sorted.
  apply StronglySorted_Sorted, StronglySorted_le_NoDup.
  - apply (transposed_cols_sorted (transposed M) HT).
    change (nrows (transposed M)) with (ncols M). lia.
  - destruct rows_sorted_twice as (_ & _ & _ & Hcols).
    destruct (Hcols c) as (_ & Hperm & _); [lia|].
    rewrite Hperm. unfold no_duplicates in Hnd.
    rewrite Forall_seqZ in Hnd. apply Hnd. lia.
Qed.

End Twice.

(** * The claims *)

Section Claims.
Context {V : Type} `{!Scalar V}.
Implicit Types (M T : spmat V) (d : NumericMatrix V).







(** Claim C10. None of the four densify routines attaches row or column
    labels to the matrix it returns; and each of them does return a matrix
    on a well-formed input that fits and has a column. *)
Theorem densify_unlabelled M :
  (∀ d, sp_to_dense M = Ok d → nm_dimnames d = None) ∧
  (∀ d, spamx_to_dense M = Ok d → nm_dimnames d = None) ∧
  (∀ d, sp_to_dense_transposed M = Ok d → nm_dimnames d = None) ∧
  (∀ d, spamx_to_dense_transposed M = Ok d → nm_dimnames d = None) ∧
  (wf_csc M → fits (2 ^ 31) M → 0 < ncols M →
   ∃ d1 d2 d3 d4,
     sp_to_dense M = Ok d1 ∧ spamx_to_dense M = Ok d2 ∧
     sp_to_dense_transposed M = Ok d3 ∧ spamx_to_dense_transposed M = Ok d4).
Proof.
  split_and!; try (intros d; apply densify_dimnames).
  intros Hwf Hfits Hnc.
  destruct (densify_returns narrow) with (M := M) (tr := false)
    as (d1 & Hd1 & _); [intros; apply to_int_id; lia|done..|].
  destruct (densify_returns wide) with (M := M) (tr := false)
    as (d2 & Hd2 & _); [intros; apply to_int64_id; lia|done..|].
  destruct (densify_returns narrow) with (M := M) (tr := true)
    as (d3 & Hd3 & _); [intros; apply to_int_id; lia|done..|].
  destruct (densify_returns wide) with (M := M) (tr := true)
    as (d4 & Hd4 & _); [intros; apply to_int64_id; lia|done..|].
  by exists d1, d2, d3, d4.
Qed.

End Claims.

(** ** The claims on the sample matrices *)

(** The claims with a hypothesis, applied to the 3 x 2 sample. *)








Lemma densify_unlabelled_witness :
  ∃ d1 d2 d3 d4,
    (sp_to_dense M_3x2 = Ok d1 ∧ nm_dimnames d1 = None) ∧
    (spamx_to_dense M_3x2 = Ok d2 ∧ nm_dimnames d2 = None) ∧
    (sp_to_dense_transposed M_3x2 = Ok d3 ∧ nm_dimnames d3 = None) ∧
    (spamx_to_dense_transposed M_3x2 = Ok d4 ∧ nm_dimnames d4 = None).
Proof.
  assert (wf_csc M_3x2) as Hc by (by apply (bool_decide_unpack _); vm_compute).
  assert (fits (2 ^ 31) M_3x2) as Hf by (by apply (bool_decide_unpack _); vm_compute).
  assert (0 < ncols M_3x2) as Hn by (by vm_compute).
  destruct (densify_unlabelled M_3x2) as (H1 & H2 & H3 & H4 & H5).
  destruct (H5 Hc Hf Hn) as (d1 & d2 & d3 & d4 & E1 & E2 & E3 & E4).
  exists d1, d2, d3, d4.
  split; [split; [exact E1|exact (H1 d1 E1)]|].
  split; [split; [exact E2|exact (H2 d2 E2)]|].
  split; [split; [exact E3|exact (H3 d3 E3)]|].
  split; [exact E4|exact (H4 d4 E4)].
Defined.

(** Claim C3 fails on the sample with an empty middle column: both
    [to_dense] routines return, and put the value stored at row 0 of column
    2 into column 1, leaving column 2 zero. *)
Lemma to_dense_gap :
  canonical M_gap ∧ fits (2 ^ 31) M_gap ∧
  entries M_gap = [(0, 0, 1); (0, 2, 2)] ∧
  ∃ d, sp_to_dense M_gap = Ok d ∧ spamx_to_dense M_gap = Ok d ∧
       cell d 0 2 = Some 0 ∧ cell d 0 1 = Some 2.
Proof.
  split; [by apply (bool_decide_unpack _); vm_compute|].
  split; [by apply (bool_decide_unpack _); vm_compute|].
  split; [by vm_compute|].
  eexists. split; [by vm_compute|]. split; by vm_compute.
Qed.

(** Claim C4 fails on the same sample: densifying the transpose puts the
    value of the last entry in cell (2, 0), the fused routine leaves that
    cell zero and puts the value in cell (1, 0); so for the wide routines. *)
Lemma to_dense_transposed_gap :
  canonical M_gap ∧ fits (2 ^ 31) M_gap ∧
  (∃ T d dt, sp_transpose M_gap = Ok T ∧ sp_to_dense T = Ok d ∧
             sp_to_dense_transposed M_gap = Ok dt ∧
             cell d 2 0 = Some 2 ∧ cell dt 2 0 = Some 0 ∧
             cell d 1 0 = Some 0 ∧ cell dt 1 0 = Some 2) ∧
  (∃ T d dt, spamx_transpose M_gap = Ok T ∧ spamx_to_dense T = Ok d ∧
             spamx_to_dense_transposed M_gap = Ok dt ∧
             cell d 2 0 = Some 2 ∧ cell dt 2 0 = Some 0 ∧
             cell d 1 0 = Some 0 ∧ cell dt 1 0 = Some 2).
Proof.
  split; [by apply (bool_decide_unpack _); vm_compute|].
  split; [by apply (bool_decide_unpack _); vm_compute|].
  split; do 3 eexists; (split; [by vm_compute|]); (split; [by vm_compute|]);
    (split; [by vm_compute|]); by vm_compute.
Qed.

(** Claim C5 fails on the 2 x 0 sample: all four densify routines read
    the offset of index 1 of an offset array that has a single element. *)
Lemma densify_no_columns :
  canonical M_2x0 ∧ fits (2 ^ 31) M_2x0 ∧ ncols M_2x0 = 0 ∧ nnz M_2x0 = 0 ∧
  zlen (sp_p M_2x0) = 1 ∧
  sp_to_dense M_2x0 = Err OutOfBounds ∧
  spamx_to_dense M_2x0 = Err OutOfBounds ∧
  sp_to_dense_transposed M_2x0 = Err OutOfBounds ∧
  spamx_to_dense_transposed M_2x0 = Err OutOfBounds.
Proof.
  split; [by apply (bool_decide_unpack _); vm_compute|].
  split; [by apply (bool_decide_unpack _); vm_compute|].
  by vm_compute.
Qed.

(** * Further properties of the routines *)

Section Further.
Context {V : Type} `{!Scalar V}.
Implicit Types (M T : spmat V) (d : NumericMatrix V).

(** Property X1. The transpose is a stable counting sort: on a well-formed
    matrix that fits the index width, sorted or not, column [r] of the
    result starts where the rows before [r] end and lists the entries of
    row [r] of the input in the order in which the input stores them, an
    entry that is stored twice being listed twice. *)
Theorem transpose_stable M :
  wf_csc M →
  (fits (2 ^ 31) M → ∃ T, sp_transpose M = Ok T ∧ gathered_by_row M T) ∧
  (fits (2 ^ 63) M → ∃ T, spamx_transpose M = Ok T ∧ gathered_by_row M T).
Proof.
  intros Hwf.
  assert (gathered_by_row M (transposed M)) as Hg.
  { intros r Hr. split.
    - apply (colptr_transposed M). lia.
    - by apply column_transposed. }
  split; intros Hfits; exists (transposed M).
  - split; [by apply sp_transpose_transposed|done].
  - split; [by apply spamx_transpose_transposed|done].
Qed.

(** Property X2. The transpose neither drops nor merges nor invents an
    entry: on a well-formed matrix that fits the index width, the entries of
    the result are a rearrangement of the flipped entries of the input, and
    its values a rearrangement of the values of the input. *)
Theorem transpose_keeps_entries M :
  wf_csc M →
  (fits (2 ^ 31) M → ∃ T, sp_transpose M = Ok T ∧ same_entries M T) ∧
  (fits (2 ^ 63) M → ∃ T, spamx_transpose M = Ok T ∧ same_entries M T).
Proof.
  intros Hwf.
  assert (same_entries M (transposed M)) as Hs.
  { split; [by apply entries_transposed_perm|by apply values_transposed_perm]. }
  split; intros Hfits; exists (transposed M).
  - split; [by apply sp_transpose_transposed|done].
  - split; [by apply spamx_transpose_transposed|done].
Qed.

(** Property X3. The transpose of a well-formed matrix that fits the index
    width is well-formed, and each of its columns lists its rows in
    non-decreasing order, whatever the order of the rows in the columns of
    the input. *)
Theorem transpose_nondecreasing M :
  wf_csc M →
  (fits (2 ^ 31) M →
     ∃ T, sp_transpose M = Ok T ∧ wf_csc T ∧ cols_nondecreasing T) ∧
  (fits (2 ^ 63) M →
     ∃ T, spamx_transpose M = Ok T ∧ wf_csc T ∧ cols_nondecreasing T).
Proof.
  intros Hwf.
  assert (cols_nondecreasing (transposed M)) as Hs.
  { intros c Hc. apply StronglySorted_Sorted.
    by apply transposed_cols_sorted. }
  split; intros Hfits; exists (transposed M).
  - split; [by apply sp_transpose_transposed|].
    split; [by apply wf_transposed|done].
  - split; [by apply spamx_transpose_transposed|].
    split; [by apply wf_transposed|done].
Qed.

(** Property X4. Transposing twice sorts: on a well-formed matrix that fits
    the index width, the second transpose returns the input with every
    column sorted by row, entries of equal row in their old order; shape,
    labels and offsets are those of the input. When no column of the input
    stores a row twice, the result is canonical. *)
Theorem transpose_twice_sorts M :
  wf_csc M →
  (fits (2 ^ 31) M →
     ∃ T T2, sp_transpose M = Ok T ∧ sp_transpose T = Ok T2 ∧
             rows_sorted M T2 ∧ (no_duplicates M → canonical T2)) ∧
  (fits (2 ^ 63) M →
     ∃ T T2, spamx_transpose M = Ok T ∧ spamx_transpose T = Ok T2 ∧
             rows_sorted M T2 ∧ (no_duplicates M → canonical T2)).
Proof.
  intros Hwf. pose proof (wf_transposed M Hwf) as HT.
  split; intros Hfits;
    exists (transposed M), (transposed (transposed M)).
  - split; [by apply sp_transpose_transposed|].
    split; [apply sp_transpose_transposed; [done|by apply fits_transposed]|].
    split; [by apply rows_sorted_twice|by apply canonical_twice].
  - split; [by apply spamx_transpose_transposed|].
    split; [apply spamx_transpose_transposed; [done|by apply fits_transposed]|].
    split; [by apply rows_sorted_twice|by apply canonical_twice].
Qed.

(** Property X5. The transposes do not check the row indices but cannot
    return on a bad one: when some entry of the input names a row outside
    the matrix, the count of step 1, or for row -1 the scatter of step 3,
    indexes the offsets of the output out of bounds. *)
Theorem transpose_row_out_of_range M e r :
  0 ≤ nrows M → 0 ≤ ncols M →
  0 ≤ e < nnz M → zget (sp_i M) e = Some r → ¬ 0 ≤ r < nrows M →
  (fits (2 ^ 31) M → - 2 ^ 31 ≤ r < 2 ^ 31 → ∀ T, sp_transpose M ≠ Ok T) ∧
  (fits (2 ^ 63) M → - 2 ^ 63 ≤ r < 2 ^ 63 → ∀ T, spamx_transpose M ≠ Ok T).
Proof.
  intros Hnr Hnc He Hr Hbad. split; intros Hfits Hrange T.
  - apply (transpose_bad_row narrow (2 ^ 31)) with (e := e) (r := r);
      try done; try lia.
    + intros. apply to_int_id. lia.
    + intros. apply to_int_id. lia.
    + intros Hne. simpl. rewrite (to_int_id r) by lia.
      destruct (decide (r = 2 ^ 31 - 1)) as [->|].
      * change (to_int (2 ^ 31 - 1 + 1)) with (- 2 ^ 31). lia.
      * rewrite to_int_id by lia. lia.
    + intros ->. simpl. change (to_int (to_int (-1))) with (-1). lia.
  - destruct Hfits as (Hfr & Hfc & Hfn).
    apply (transpose_bad_row wide (2 ^ 63)) with (e := e) (r := r);
      try done; try lia.
    + intros. apply to_size_t_id. lia.
    + intros. apply to_int64_id. lia.
    + intros Hne. simpl. rewrite (to_int64_id r) by lia.
      destruct (decide (r = 2 ^ 63 - 1)) as [->|].
      * change (to_int64 (2 ^ 63 - 1 + 1)) with (- 2 ^ 63). lia.
      * rewrite to_int64_id by lia. lia.
    + intros ->. simpl.
      change (to_size_t (to_int64 (-1))) with (2 ^ 64 - 1). lia.
Qed.

(** Property X6. The inner loop of step 3 finds the column of an entry: on
    a well-formed matrix that fits the narrow width, started at a column
    that begins at or before offset [e], it stops at the column that holds
    entry [e], at or after the column it started from. Both widths stop at
    the same column. *)
Theorem skip_columns_finds M e cid :
  wf_csc M → fits (2 ^ 31) M →
  0 ≤ e < nnz M → 0 ≤ cid ≤ ncols M → colptr M cid ≤ e →
  ∃ c, skip_columns narrow M e cid = Ok c ∧
       skip_columns wide M e cid = Ok c ∧
       cid ≤ c < ncols M ∧
       ∃ r v, zget (entries M) e = Some (r, c, v).
Proof.
  intros Hwf Hfits He Hcid Hle.
  assert (∀ z, 0 ≤ z < 2 ^ 31 → to_int z = z) as Hint
    by (intros; apply to_int_id; lia).
  assert (∀ z, 0 ≤ z < 2 ^ 63 → to_size_t z = z) as Hsz
    by (intros; apply to_size_t_id; lia).
  assert (∀ z, 0 ≤ z < 2 ^ 63 → to_int64 z = z) as Hi64
    by (intros; apply to_int64_id; lia).
  assert (fits (2 ^ 63) M) as Hfits' by (by apply (fits_mono (2 ^ 31)); [lia|]).
  destruct (skip_columns_ok narrow (2 ^ 31) ltac:(lia) Hint Hint M Hwf
              (fits_fits_rows _ _ Hfits) e cid He Hcid Hle)
    as (c & Hn & Hc & Hcol).
  destruct (skip_columns_ok wide (2 ^ 63) ltac:(lia) Hsz Hi64 M Hwf
              (fits_fits_rows _ _ Hfits') e cid He Hcid Hle)
    as (c' & Hw & Hc' & Hcol').
  destruct (entries_lookup M Hwf c e) as (r & v & _ & _ & Ht); [lia|done|].
  destruct (entries_lookup M Hwf c' e) as (r' & v' & _ & _ & Ht'); [lia|done|].
  assert (c' = c) as -> by congruence.
  exists c. split; [done|]. split; [done|]. split; [done|]. by exists r, v.
Qed.

(** Property X7. The densify routines keep every value in its row: on a
    well-formed matrix that fits the narrow width and has a column, with
    gaps or without, all four return a matrix of the right shape in which
    every cell is zero or holds the value of an entry of its row, stored in
    the column of the cell or in a later one. A value may thus move to the
    left, never to another row nor to the right. *)
Theorem densify_keeps_rows M :
  wf_csc M → fits (2 ^ 31) M → 0 < ncols M →
  ∃ d dt, sp_to_dense M = Ok d ∧ spamx_to_dense M = Ok d ∧
          sp_to_dense_transposed M = Ok dt ∧
          spamx_to_dense_transposed M = Ok dt ∧
          rows_kept M false d ∧ rows_kept M true dt.
Proof.
  intros Hwf Hfits Hnc.
  destruct (densify_rows narrow) with (M := M) (tr := false)
    as (d & Hd & Hrows); [intros; apply to_int_id; lia|done..|].
  destruct (densify_rows narrow) with (M := M) (tr := true)
    as (dt & Hdt & Hrowst); [intros; apply to_int_id; lia|done..|].
  exists d, dt. split; [done|].
  split; [unfold spamx_to_dense; by rewrite <- densify_narrow_wide|].
  split; [done|].
  split; [unfold spamx_to_dense_transposed; by rewrite <- densify_narrow_wide|].
  done.
Qed.

(** Property X8. On a well-formed matrix without gaps, the densify
    routines overwrite and do not add: when a cell is stored more than
    once, all four leave the value of the last entry stored there in the
    cell, and zero in a cell that is not stored. *)
Theorem densify_last_stored_wins M :
  wf_csc M → fits (2 ^ 31) M → 0 < ncols M → gap_free M →
  ∃ d dt, sp_to_dense M = Ok d ∧ spamx_to_dense M = Ok d ∧
          sp_to_dense_transposed M = Ok dt ∧
          spamx_to_dense_transposed M = Ok dt ∧
          last_stored_wins M false d ∧ last_stored_wins M true dt.
Proof.
  intros Hwf Hfits Hnc Hgap.
  destruct (densify_exact narrow) with (M := M) (tr := false)
    as (d & Hd & Hr & Hc & _ & _ & Hcells);
    [intros; apply to_int_id; lia|done..|].
  destruct (densify_exact narrow) with (M := M) (tr := true)
    as (dt & Hdt & Hrt & Hct & _ & _ & Hcellst);
    [intros; apply to_int_id; lia|done..|].
  exists d, dt. split; [done|].
  split; [unfold spamx_to_dense; by rewrite <- densify_narrow_wide|].
  split; [done|].
  split; [unfold spamx_to_dense_transposed; by rewrite <- densify_narrow_wide|].
  done.
Qed.

(** Property X9. The two layouts agree on every input: on a well-formed
    matrix that fits the narrow width and has a column, with gaps or
    without, what [to_dense_transposed] returns is, cell by cell, the
    transpose of what [to_dense] returns. *)
Theorem densify_layouts_agree M :
  wf_csc M → fits (2 ^ 31) M → 0 < ncols M →
  ∃ d dt, sp_to_dense M = Ok d ∧ spamx_to_dense M = Ok d ∧
          sp_to_dense_transposed M = Ok dt ∧
          spamx_to_dense_transposed M = Ok dt ∧
          dense_transposed d dt.
Proof.
  intros Hwf Hfits Hnc.
  destruct (densify_pair narrow) with (M := M) as (d & dt & Hd & Hdt & Ht);
    [intros; apply to_int_id; lia|done..|].
  exists d, dt. split; [done|].
  split; [unfold spamx_to_dense; by rewrite <- densify_narrow_wide|].
  split; [done|].
  split; [unfold spamx_to_dense_transposed; by rewrite <- densify_narrow_wide|].
  done.
Qed.

End Further.

(** ** The properties on the sample matrices *)

Lemma transpose_stable_witness :
  (∃ T, sp_transpose M_unsorted = Ok T ∧ gathered_by_row M_unsorted T) ∧
  (∃ T, spamx_transpose M_unsorted = Ok T ∧ gathered_by_row M_unsorted T).
Proof.
  assert (wf_csc M_unsorted) as Hc by (by apply (bool_decide_unpack _); vm_compute).
  destruct (transpose_stable M_unsorted Hc) as [Hn Hw].
  split; [apply Hn|apply Hw]; by apply (bool_decide_unpack _); vm_compute.
Defined.

Lemma transpose_keeps_entries_witness :
  (∃ T, sp_transpose M_dup = Ok T ∧ same_entries M_dup T) ∧
  (∃ T, spamx_transpose M_dup = Ok T ∧ same_entries M_dup T).
Proof.
  assert (wf_csc M_dup) as Hc by (by apply (bool_decide_unpack _); vm_compute).
  destruct (transpose_keeps_entries M_dup Hc) as [Hn Hw].
  split; [apply Hn|apply Hw]; by apply (bool_decide_unpack _); vm_compute.
Defined.

Lemma transpose_nondecreasing_witness :
  (∃ T, sp_transpose M_unsorted = Ok T ∧ wf_csc T ∧ cols_nondecreasing T) ∧
  (∃ T, spamx_transpose M_unsorted = Ok T ∧ wf_csc T ∧ cols_nondecreasing T).
Proof.
  assert (wf_csc M_unsorted) as Hc by (by apply (bool_decide_unpack _); vm_compute).
  destruct (transpose_nondecreasing M_unsorted Hc) as [Hn Hw].
  split; [apply Hn|apply Hw]; by apply (bool_decide_unpack _); vm_compute.
Defined.

Lemma transpose_twice_sorts_witness :
  (∃ T T2, sp_transpose M_unsorted = Ok T ∧ sp_transpose T = Ok T2 ∧
           rows_sorted M_unsorted T2 ∧ canonical T2) ∧
  (∃ T T2, spamx_transpose M_unsorted = Ok T ∧ spamx_transpose T = Ok T2 ∧
           rows_sorted M_unsorted T2 ∧ canonical T2).
Proof.
  assert (wf_csc M_unsorted) as Hc by (by apply (bool_decide_unpack _); vm_compute).
  assert (no_duplicates M_unsorted) as Hnd
    by (by apply (bool_decide_unpack _); vm_compute).
  destruct (transpose_twice_sorts M_unsorted Hc) as [Hn Hw].
  split.
  - destruct Hn as (T & T2 & H1 & H2 & H3 & H4);
      [by apply (bool_decide_unpack _); vm_compute|].
    exists T, T2. split; [exact H1|]. split; [exact H2|].
    split; [exact H3|exact (H4 Hnd)].
  - destruct Hw as (T & T2 & H1 & H2 & H3 & H4);
      [by apply (bool_decide_unpack _); vm_compute|].
    exists T, T2. split; [exact H1|]. split; [exact H2|].
    split; [exact H3|exact (H4 Hnd)].
Defined.

Lemma transpose_row_out_of_range_witness :
  (∀ T, sp_transpose M_bad_row ≠ Ok T) ∧
  (∀ T, spamx_transpose M_bad_row ≠ Ok T).
Proof.
  destruct (transpose_row_out_of_range M_bad_row 1 5) as [Hn Hw];
    try (by apply (bool_decide_unpack _); vm_compute).
  split; [apply Hn|apply Hw]; by apply (bool_decide_unpack _); vm_compute.
Defined.

Lemma skip_columns_finds_witness :
  ∃ c, skip_columns narrow M_3x2 2 0 = Ok c ∧
       skip_columns wide M_3x2 2 0 = Ok c ∧
       0 ≤ c < ncols M_3x2 ∧
       ∃ r v, zget (entries M_3x2) 2 = Some (r, c, v).
Proof.
  apply (skip_columns_finds M_3x2 2 0);
    by apply (bool_decide_unpack _); vm_compute.
Defined.

Lemma densify_keeps_rows_witness :
  ∃ d dt, sp_to_dense M_gap = Ok d ∧ spamx_to_dense M_gap = Ok d ∧
          sp_to_dense_transposed M_gap = Ok dt ∧
          spamx_to_dense_transposed M_gap = Ok dt ∧
          rows_kept M_gap false d ∧ rows_kept M_gap true dt.
Proof.
  apply (densify_keeps_rows M_gap);
    by apply (bool_decide_unpack _); vm_compute.
Defined.

Lemma densify_last_stored_wins_witness :
  ∃ d dt, sp_to_dense M_dup = Ok d ∧ spamx_to_dense M_dup = Ok d ∧
          sp_to_dense_transposed M_dup = Ok dt ∧
          spamx_to_dense_transposed M_dup = Ok dt ∧
          last_stored_wins M_dup false d ∧ last_stored_wins M_dup true dt.
Proof.
  apply (densify_last_stored_wins M_dup);
    by apply (bool_decide_unpack _); vm_compute.
Defined.

Lemma densify_layouts_agree_witness :
  ∃ d dt, sp_to_dense M_gap = Ok d ∧ spamx_to_dense M_gap = Ok d ∧
          sp_to_dense_transposed M_gap = Ok dt ∧
          spamx_to_dense_transposed M_gap = Ok dt ∧
          dense_transposed d dt.
Proof.
  apply (densify_layouts_agree M_gap);
    by apply (bool_decide_unpack _); vm_compute.
Defined.

Lemma gap_free_to_dense_witness :
  ∃ d, sp_to_dense M_3x2 = Ok d ∧ spamx_to_dense M_3x2 = Ok d ∧
       nm_nrow d = nrows M_3x2 ∧ nm_ncol d = ncols M_3x2 ∧
       (∀ r c v, (r, c, v) ∈ entries M_3x2 → cell d r c = Some v) ∧
       (∀ r c, 0 ≤ r < nrows M_3x2 → 0 ≤ c < ncols M_3x2 →
               (∀ v, (r, c, v) ∉ entries M_3x2) → cell d r c = Some zero).
Proof.
  apply (gap_free_to_dense M_3x2);
    by apply (bool_decide_unpack _); vm_compute.
Defined.

Lemma gap_free_fusion_witness :
  ∃ T d, sp_transpose M_3x2 = Ok T ∧ sp_to_dense T = Ok d ∧
         sp_to_dense_transposed M_3x2 = Ok d.
Proof.
  apply (gap_free_fusion M_3x2);
    by apply (bool_decide_unpack _); vm_compute.
Defined.

Lemma densify_without_column_witness :
  sp_to_dense M_2x0 = Err OutOfBounds ∧
  spamx_to_dense M_2x0 = Err OutOfBounds ∧
  sp_to_dense_transposed M_2x0 = Err OutOfBounds ∧
  spamx_to_dense_transposed M_2x0 = Err OutOfBounds.
Proof.
  assert (wf_csc M_2x0) as Hc by (by apply (bool_decide_unpack _); vm_compute).
  assert (ncols M_2x0 = 0) as Hn by reflexivity.
  split; [exact (densify_without_column narrow false M_2x0 Hc Hn)|].
  split; [exact (densify_without_column wide false M_2x0 Hc Hn)|].
  split; [exact (densify_without_column narrow true M_2x0 Hc Hn)|].
  exact (densify_without_column wide true M_2x0 Hc Hn).
Defined.

Lemma empty_inputs_witness :
  (∃ T, sp_transpose M_2x3_empty = Ok T ∧ spamx_transpose M_2x3_empty = Ok T ∧
        nrows T = ncols M_2x3_empty ∧ ncols T = nrows M_2x3_empty ∧
        nnz T = 0 ∧ sp_i T = [] ∧ sp_x T = []) ∧
  (∀ tr, ∃ d, densify narrow tr M_2x3_empty = Ok d ∧
              densify wide tr M_2x3_empty = Ok d ∧
              nm_nrow d = (if tr then ncols M_2x3_empty else nrows M_2x3_empty) ∧
              nm_ncol d = (if tr then nrows M_2x3_empty else ncols M_2x3_empty) ∧
              nm_data d = replicate (Z.to_nat (nrows M_2x3_empty * ncols M_2x3_empty)) zero).
Proof.
  assert (wf_csc M_2x3_empty) as Hc by (by apply (bool_decide_unpack _); vm_compute).
  assert (fits (2 ^ 31) M_2x3_empty) as Hf
    by (by apply (bool_decide_unpack _); vm_compute).
  destruct (empty_inputs M_2x3_empty Hc Hf) as [Ht Hd].
  { right. right. reflexivity. }
  split; [exact Ht|]. apply Hd. by apply (bool_decide_unpack _); vm_compute.
Defined.

(** What the routines return on the samples. *)

Example M_unsorted_twice :
  (T <~ sp_transpose M_unsorted ;; sp_transpose T) = Ok M_3x2.
Proof. by vm_compute. Qed.

Example M_dup_to_dense :
  sp_to_dense M_dup
  = Ok {| nm_nrow := 2; nm_ncol := 2; nm_data := [2; 0; 0; 3];
          nm_dimnames := None |}.
Proof. by vm_compute. Qed.

Example M_bad_row_transpose : sp_transpose M_bad_row = Err OutOfBounds.
Proof. by vm_compute. Qed.
